(** * ChaCha20 stream cipher (chacha20_main.py): model and properties

    The Python module is embedded function by function.  Python integers
    are unbounded, so words are [Z] and every mask [& 0xFFFFFFFF] of the
    source is written out with [Z.land].  A [bytes] object is a
    [list byte]; the 16-word state is a [list Z] read and written by
    index.  Exceptions are values of [res]. *)

From Stdlib Require Import ZArith Lia.
From Stdlib.Strings Require Import Byte.
From stdpp Require Import base list.

Local Open Scope Z_scope.

(** ** Exceptions *)

Inductive error : Set :=
  | StructError   (* struct.error: wrong buffer size or item out of range *)
  | IndexError    (* list or bytes index out of range *)
  | ValueError.   (* bytes([...]) given an int outside range(256) *)

Inductive res (A : Type) : Type :=
  | Ok (a : A)
  | Err (e : error).
Arguments Ok {A} a.
Arguments Err {A} e.

#[global] Instance res_ret : MRet res := fun _ a => Ok a.
#[global] Instance res_bind : MBind res := fun _ _ f m =>
  match m with
  | Ok a => f a
  | Err e => Err e
  end.
#[global] Instance res_fmap : FMap res := fun _ _ f m =>
  match m with
  | Ok a => Ok (f a)
  | Err e => Err e
  end.

(** [for x in xs: s = body(x, s)], stopping at the first exception. *)
Fixpoint for_each {A S : Type} (xs : list A) (body : A -> S -> res S) (s : S)
  : res S :=
  match xs with
  | [] => Ok s
  | x :: xs' => s' ← body x s; for_each xs' body s'
  end.

(** [[f(x) for x in xs]], stopping at the first exception. *)
Fixpoint comprehension {A B : Type} (f : A -> res B) (xs : list A)
  : res (list B) :=
  match xs with
  | [] => Ok []
  | x :: xs' => y ← f x; ys ← comprehension f xs'; Ok (y :: ys)
  end.

(** [range(n)] *)
Definition range (n : nat) : list nat := seq 0 n.

(** ** Lists and bytes read and written by index *)

(** [l[i]] for a non-negative index. *)
Definition getitem {A : Type} (l : list A) (i : nat) : res A :=
  match l !! i with
  | Some x => Ok x
  | None => Err IndexError
  end.

(** [l[i] = v] for a non-negative index. *)
Definition setitem {A : Type} (l : list A) (i : nat) (v : A) : res (list A) :=
  if decide (i < length l)%nat then Ok (<[i:=v]> l) else Err IndexError.

Definition byte_to_Z (b : byte) : Z := Z.of_N (Byte.to_N b).

(** One element of [bytes([...])]. *)
Definition byte_of_Z (z : Z) : res byte :=
  if decide (z < 0) then Err ValueError
  else match Byte.of_N (Z.to_N z) with
       | Some b => Ok b
       | None => Err ValueError
       end.

(** [bytes(ints)] *)
Definition bytes_of_ints (ints : list Z) : res (list byte) :=
  comprehension byte_of_Z ints.

(** ** The [struct] formats used by the module *)

Definition MASK32 : Z := 0xFFFFFFFF.

(** Little-endian decoding of one [I] item. *)
Definition le_word (b0 b1 b2 b3 : byte) : Z :=
  Z.lor (byte_to_Z b0)
    (Z.lor (Z.shiftl (byte_to_Z b1) 8)
       (Z.lor (Z.shiftl (byte_to_Z b2) 16) (Z.shiftl (byte_to_Z b3) 24))).

Fixpoint le_words (bs : list byte) : list Z :=
  match bs with
  | b0 :: b1 :: b2 :: b3 :: rest => le_word b0 b1 b2 b3 :: le_words rest
  | _ => []
  end.

(** [struct.unpack('<nI', buf)] *)
Definition struct_unpack_I (n : nat) (buf : list byte) : res (list Z) :=
  if decide (length buf = 4 * n)%nat then Ok (le_words buf)
  else Err StructError.

(** Little-endian encoding of one [I] item. *)
Definition pack_word (w : Z) : res (list byte) :=
  if decide (0 <= w <= MASK32) then
    comprehension (fun k => byte_of_Z (Z.land (Z.shiftr w (8 * Z.of_nat k)) 0xFF))
                  (range 4)
  else Err StructError.

(** [struct.pack('<nI', *ws)] *)
Definition struct_pack_I (n : nat) (ws : list Z) : res (list byte) :=
  if decide (length ws = n) then
    chunks ← comprehension pack_word ws; Ok (concat chunks)
  else Err StructError.

(** ** rotate_left *)

Definition rotate_left (value shift : Z) : Z :=
  let value := Z.land value 0xFFFFFFFF in
  let shift := Z.land shift 31 in
  Z.land (Z.lor (Z.shiftl value shift) (Z.shiftr value (32 - shift)))
         0xFFFFFFFF.

(** ** quarter_round *)

(** [state[i] = (state[i] + state[j]) & 0xFFFFFFFF] *)
Definition add_into (state : list Z) (i j : nat) : res (list Z) :=
  x ← getitem state i;
  y ← getitem state j;
  setitem state i (Z.land (x + y) 0xFFFFFFFF).

(** [state[i] ^= state[j]] *)
Definition xor_into (state : list Z) (i j : nat) : res (list Z) :=
  x ← getitem state i;
  y ← getitem state j;
  setitem state i (Z.lxor x y).

(** [state[i] = rotate_left(state[i], n)] *)
Definition rotate_at (state : list Z) (i : nat) (n : Z) : res (list Z) :=
  x ← getitem state i;
  setitem state i (rotate_left x n).

Definition quarter_round (state : list Z) (a b c d : nat) : res (list Z) :=
  (* Step 1: a += b; d ^= a; d <<<= 16 *)
  state ← add_into state a b;
  state ← xor_into state d a;
  state ← rotate_at state d 16;
  (* Step 2: c += d; b ^= c; b <<<= 12 *)
  state ← add_into state c d;
  state ← xor_into state b c;
  state ← rotate_at state b 12;
  (* Step 3: a += b; d ^= a; d <<<= 8 *)
  state ← add_into state a b;
  state ← xor_into state d a;
  state ← rotate_at state d 8;
  (* Step 4: c += d; b ^= c; b <<<= 7 *)
  state ← add_into state c d;
  state ← xor_into state b c;
  state ← rotate_at state b 7;
  (* the caller sees the mutated list *)
  Ok state.

(** ** initial_state *)

Definition constants : list Z :=
  [0x61707865; 0x3320646e; 0x79622d32; 0x6b206574].

Definition initial_state (key : list byte) (counter : Z) (nonce : list byte)
  : res (list Z) :=
  key_words ← struct_unpack_I 8 key;
  nonce_words ← struct_unpack_I 3 nonce;
  Ok (constants ++ key_words ++ [counter] ++ nonce_words).

(** ** chacha20_block *)

(** The index groups of the [quarter_round] calls made so far. *)
Definition qr_log : Type := list (nat * nat * nat * nat).

(** A call [quarter_round(working_state, a, b, c, d)] of the block
    function, entered in the log of calls. *)
Definition call_quarter_round (a b c d : nat) (acc : list Z * qr_log)
  : res (list Z * qr_log) :=
  let '(working_state, calls) := acc in
  working_state ← quarter_round working_state a b c d;
  Ok (working_state, calls ++ [(a, b, c, d)]).

(** The body of the round loop: four column rounds, four diagonal rounds. *)
Definition double_round_run (acc : list Z * qr_log) : res (list Z * qr_log) :=
  acc ← call_quarter_round 0 4 8 12 acc;
  acc ← call_quarter_round 1 5 9 13 acc;
  acc ← call_quarter_round 2 6 10 14 acc;
  acc ← call_quarter_round 3 7 11 15 acc;
  acc ← call_quarter_round 0 5 10 15 acc;
  acc ← call_quarter_round 1 6 11 12 acc;
  acc ← call_quarter_round 2 7 8 13 acc;
  acc ← call_quarter_round 3 4 9 14 acc;
  Ok acc.

(** [[(working_state[i] + state[i]) & 0xFFFFFFFF for i in range(16)]] *)
Definition add_states (working_state state : list Z) : res (list Z) :=
  comprehension
    (fun i =>
       x ← getitem working_state i;
       y ← getitem state i;
       Ok (Z.land (x + y) 0xFFFFFFFF))
    (range 16).

(** The function together with the log of its [quarter_round] calls. *)
Definition chacha20_block_run (key : list byte) (counter : Z)
    (nonce : list byte) : res (list byte * qr_log) :=
  state ← initial_state key counter nonce;
  (* state.copy(): lists are values, the original stays as it is *)
  let working_state := state in
  rounds ← for_each (range 10) (fun _ acc => double_round_run acc)
                    (working_state, []);
  let '(working_state, calls) := rounds in
  final_state ← add_states working_state state;
  keystream ← struct_pack_I 16 final_state;
  Ok (keystream, calls).

Definition chacha20_block (key : list byte) (counter : Z) (nonce : list byte)
  : res (list byte) :=
  fst <$> chacha20_block_run key counter nonce.

(** ** chacha20_encrypt *)

(** One iteration of the block loop.  The loop state is the output built so
    far together with the counters handed to [chacha20_block] so far. *)
Definition encrypt_block (key nonce plaintext : list byte)
    (initial_counter : Z) (counter : nat) (acc : list byte * list Z)
  : res (list byte * list Z) :=
  let '(ciphertext, calls) := acc in
  keystream ← chacha20_block key (Z.of_nat counter + initial_counter) nonce;
  let start_pos := (counter * 64)%nat in
  let end_pos := Nat.min (start_pos + 64) (length plaintext) in
  let block_size := (end_pos - start_pos)%nat in
  ints ← comprehension
           (fun i =>
              p ← getitem plaintext (start_pos + i);
              k ← getitem keystream i;
              Ok (Z.lxor (byte_to_Z p) (byte_to_Z k)))
           (range block_size);
  block ← bytes_of_ints ints;
  Ok (ciphertext ++ block, calls ++ [Z.of_nat counter + initial_counter]).

(** The function together with the log of its [chacha20_block] calls. *)
Definition chacha20_encrypt_run (key nonce plaintext : list byte)
    (initial_counter : Z) : res (list byte * list Z) :=
  if decide (length plaintext = 0)%nat then Ok ([], [])
  else
    let block_count := ((length plaintext + 63) / 64)%nat in
    for_each (range block_count)
             (encrypt_block key nonce plaintext initial_counter) ([], []).

Definition chacha20_encrypt (key nonce plaintext : list byte)
    (initial_counter : Z) : res (list byte) :=
  fst <$> chacha20_encrypt_run key nonce plaintext initial_counter.

(** ** Reference data *)

Definition bytes_of_Zs (zs : list Z) : list byte :=
  omap (fun z => Byte.of_N (Z.to_N z)) zs.

Definition rfc_key : list byte :=
  bytes_of_Zs (map Z.of_nat (seq 0 32)).

Definition test_nonce : list byte :=
  bytes_of_Zs [0; 0; 0; 0; 0; 0; 0; 0x4a; 0; 0; 0; 0].

Definition rfc_block_nonce : list byte :=
  bytes_of_Zs [0; 0; 0; 9; 0; 0; 0; 0x4a; 0; 0; 0; 0].

Definition hex_of_bytes (bs : list byte) : list Z := map byte_to_Z bs.

(** * Definitions used to state the properties *)

(** ** Words and the quarter round, as arithmetic *)

Definition word32 (w : Z) : Prop := 0 <= w < 2 ^ 32.

Definition words32 (ws : list Z) : Prop := Forall word32 ws.

(** Circular rotation of a 32-bit word by [n] places, as arithmetic: the
    low [32 - n] bits move up by [n] and the high [n] bits wrap around to
    the bottom. *)
Definition rotl32 (x n : Z) : Z :=
  (x mod 2 ^ (32 - n)) * 2 ^ n + x / 2 ^ (32 - n).

(** Wrapping addition of 32-bit words. *)
Definition add32 (x y : Z) : Z := (x + y) mod 2 ^ 32.

(** One line of the quarter round on the slots [x], [y], [z] of the state:
    [x = x + y] (wrapping), [z = z xor x], [z = z <<< n]. *)
Definition arx_line (st : list Z) (x y z : nat) (n : Z) : list Z :=
  let st := <[x := add32 (st !!! x) (st !!! y)]> st in
  let st := <[z := Z.lxor (st !!! z) (st !!! x)]> st in
  <[z := rotl32 (st !!! z) n]> st.

(** The four lines, with the rotation distances 16, 12, 8, 7. *)
Definition arx_quarter_round (st : list Z) (a b c d : nat) : list Z :=
  let st := arx_line st a b d 16 in
  let st := arx_line st c d b 12 in
  let st := arx_line st a b d 8 in
  arx_line st c d b 7.

(** ** The block function *)

(** [double_round_run] on the working state alone. *)
Definition double_round (working_state : list Z) : res (list Z) :=
  ws ← quarter_round working_state 0 4 8 12;
  ws ← quarter_round ws 1 5 9 13;
  ws ← quarter_round ws 2 6 10 14;
  ws ← quarter_round ws 3 7 11 15;
  ws ← quarter_round ws 0 5 10 15;
  ws ← quarter_round ws 1 6 11 12;
  ws ← quarter_round ws 2 7 8 13;
  ws ← quarter_round ws 3 4 9 14;
  Ok ws.

Definition column_rounds : qr_log :=
  [(0, 4, 8, 12); (1, 5, 9, 13); (2, 6, 10, 14); (3, 7, 11, 15)]%nat.

Definition diagonal_rounds : qr_log :=
  [(0, 5, 10, 15); (1, 6, 11, 12); (2, 7, 8, 13); (3, 4, 9, 14)]%nat.

(** Ten double rounds: the index groups of all quarter rounds, in order. *)
Definition qr_schedule : qr_log :=
  concat (replicate 10 (column_rounds ++ diagonal_rounds)).

Definition apply_qr (st : list Z) (q : nat * nat * nat * nat) : list Z :=
  let '(a, b, c, d) := q in arx_quarter_round st a b c d.

(** [final[i] = (W[i] + S[i]) mod 2^32] *)
Definition feed_forward (W S : list Z) : list Z := zip_with add32 W S.

(** A state: sixteen 32-bit words. *)
Definition state16 (st : list Z) : Prop :=
  length st = 16%nat /\ words32 st.

(** ** Agreement modulo 2^32 *)

Definition eqm32 (x y : Z) : Prop := x mod 2 ^ 32 = y mod 2 ^ 32.

(** Two runs that raise the same exception or return related values. *)
Definition res_rel {A : Type} (R : A -> A -> Prop) (m m' : res A) : Prop :=
  match m, m' with
  | Ok a, Ok a' => R a a'
  | Err e, Err e' => e = e'
  | _, _ => False
  end.

Abbreviation eqm_states := (Forall2 eqm32).

(** ** Byte order *)

#[global] Instance byte_inhabited : Inhabited byte := populate x00.

(** The [i]-th little-endian 32-bit word of a byte string, as arithmetic. *)
Definition le32_at (bs : list byte) (i : nat) : Z :=
  byte_to_Z (bs !!! (4 * i)%nat)
  + 2 ^ 8 * byte_to_Z (bs !!! (4 * i + 1)%nat)
  + 2 ^ 16 * byte_to_Z (bs !!! (4 * i + 2)%nat)
  + 2 ^ 24 * byte_to_Z (bs !!! (4 * i + 3)%nat).

(** The four bytes of a 32-bit word, least significant first. *)
Definition word_le_bytes (w : Z) : list Z :=
  [w mod 2 ^ 8; (w / 2 ^ 8) mod 2 ^ 8; (w / 2 ^ 16) mod 2 ^ 8;
   (w / 2 ^ 24) mod 2 ^ 8].

(** Words laid out one after the other, word 0 first. *)
Definition serialize (ws : list Z) : list Z := concat (map word_le_bytes ws).

(** ** The stream *)

(** Exclusive-or of two bytes, as the byte that [bytes([p ^ k])] holds. *)
Definition xor_byte (p k : byte) : byte :=
  match byte_of_Z (Z.lxor (byte_to_Z p) (byte_to_Z k)) with
  | Ok b => b
  | Err _ => x00
  end.

Definition xor_bytes (p k : list byte) : list byte := zip_with xor_byte p k.

(** The keystream block of block index [i]. *)
Definition block_at (key nonce : list byte) (initial_counter : Z) (i : nat)
  : list byte :=
  match chacha20_block key (Z.of_nat i + initial_counter) nonce with
  | Ok ks => ks
  | Err _ => []
  end.

(** The keystream blocks of the indices [k], [k+1], ..., [k+n-1]. *)
Fixpoint keystream (key nonce : list byte) (initial_counter : Z) (k n : nat)
  : list byte :=
  match n with
  | O => []
  | S n' => block_at key nonce initial_counter k
            ++ keystream key nonce initial_counter (S k) n'
  end.

(** [ceil(len / 64)] as the source computes it. *)
Definition block_count (len : nat) : nat := ((len + 63) / 64)%nat.

(** The input xor the keystream of its blocks. *)
Definition stream_output (key nonce : list byte) (initial_counter : Z)
    (P : list byte) : list byte :=
  xor_bytes P (keystream key nonce initial_counter 0
                         (block_count (length P))).

(** ** Reference vectors *)

(** The keystream block of RFC 8439, section 2.3.2. *)
Definition rfc_keystream : list Z :=
  [0x10; 0xf1; 0xe7; 0xe4; 0xd1; 0x3b; 0x59; 0x15;
   0x50; 0x0f; 0xdd; 0x1f; 0xa3; 0x20; 0x71; 0xc4;
   0xc7; 0xd1; 0xf4; 0xc7; 0x33; 0xc0; 0x68; 0x03;
   0x04; 0x22; 0xaa; 0x9a; 0xc3; 0xd4; 0x6c; 0x4e;
   0xd2; 0x82; 0x64; 0x46; 0x07; 0x9f; 0xaa; 0x09;
   0x14; 0xc2; 0xd7; 0x05; 0xd9; 0x8b; 0x02; 0xa2;
   0xb5; 0x12; 0x9c; 0xd1; 0xde; 0x16; 0x4e; 0xb9;
   0xcb; 0xd0; 0x83; 0xe8; 0xa2; 0x50; 0x3c; 0x4e].

(** The block computed for the nonce 000000000000004a00000000. *)
Definition test_nonce_keystream : list Z :=
  [0x22; 0x4f; 0x51; 0xf3; 0x40; 0x1b; 0xd9; 0xe1;
   0x2f; 0xde; 0x27; 0x6f; 0xb8; 0x63; 0x1d; 0xed;
   0x8c; 0x13; 0x1f; 0x82; 0x3d; 0x2c; 0x06; 0xe2;
   0x7e; 0x4f; 0xca; 0xec; 0x9e; 0xf3; 0xcf; 0x78;
   0x8a; 0x3b; 0x0a; 0xa3; 0x72; 0x60; 0x0a; 0x92;
   0xb5; 0x79; 0x74; 0xcd; 0xed; 0x2b; 0x93; 0x34;
   0x79; 0x4c; 0xba; 0x40; 0xc6; 0x3e; 0x34; 0xcd;
   0xea; 0x21; 0x2c; 0x4c; 0xf0; 0x7d; 0x41; 0xb7].

(** The quarter-round test state of RFC 8439, section 2.2.1. *)
Definition rfc_qr_state : list Z :=
  [0x879531e0; 0xc5ecf37d; 0x516461b1; 0xc9a62f8a;
   0x44c20ef3; 0x3390af7f; 0xd9fc690b; 0x2a5f714c;
   0x53372767; 0xb00a5631; 0x974c541a; 0x359e9963;
   0x5c971061; 0x3d631689; 0x2098d9d6; 0x91dbd320].

Definition rfc_qr_expected : list Z :=
  [0x879531e0; 0xc5ecf37d; 0xbdb886dc; 0xc9a62f8a;
   0x44c20ef3; 0x3390af7f; 0xd9fc690b; 0xcfacafd2;
   0xe46bea80; 0xb00a5631; 0x974c541a; 0x359e9963;
   0x5c971061; 0xccc07c79; 0x2098d9d6; 0x91dbd320].

(** The RFC 8439 section 2.4.2 plaintext, first 70 bytes. *)
Definition sunscreen : list byte :=
  bytes_of_Zs
    [0x4c; 0x61; 0x64; 0x69; 0x65; 0x73; 0x20; 0x61; 0x6e; 0x64;
     0x20; 0x47; 0x65; 0x6e; 0x74; 0x6c; 0x65; 0x6d; 0x65; 0x6e;
     0x20; 0x6f; 0x66; 0x20; 0x74; 0x68; 0x65; 0x20; 0x63; 0x6c;
     0x61; 0x73; 0x73; 0x20; 0x6f; 0x66; 0x20; 0x27; 0x39; 0x39;
     0x3a; 0x20; 0x49; 0x66; 0x20; 0x49; 0x20; 0x63; 0x6f; 0x75;
     0x6c; 0x64; 0x20; 0x6f; 0x66; 0x66; 0x65; 0x72; 0x20; 0x79;
     0x6f; 0x75; 0x20; 0x6f; 0x6e; 0x6c; 0x79; 0x20; 0x6f; 0x6e].

(** ** Slots, index groups and further reference data *)

(** What one statement of [quarter_round] that writes slot [w] does to the
    list: nothing but a write to an existing slot [w]. *)
Definition writes (w : nat) (st st' : list Z) : Prop :=
  length st' = length st
  /\ (w < length st)%nat
  /\ (forall k, k <> w -> st' !! k = st !! k).

(** Slot [k] exists and holds a 32-bit word. *)
Definition word_at (st : list Z) (k : nat) : Prop :=
  exists v, st !! k = Some v /\ word32 v.

(** An index group of four different slots of a state. *)
Definition distinct_group (q : nat * nat * nat * nat) : Prop :=
  let '(a, b, c, d) := q in
  ((a < 16)%nat /\ (b < 16)%nat /\ (c < 16)%nat /\ (d < 16)%nat)
  /\ (a <> b /\ a <> c /\ a <> d /\ b <> c /\ b <> d /\ c <> d).

(** The RFC 8439 section 2.2.1 state after the round loop, with the log. *)
Definition rfc_qr_state_rounds : list Z * qr_log :=
  Eval vm_compute in
    match for_each (range 10) (fun _ acc => double_round_run acc)
                   (rfc_qr_state, []) with
    | Ok r => r
    | Err _ => ([], [])
    end.

(** The initial state of the RFC key, counter 1 and the test nonce. *)
Definition rfc_initial_state : list Z :=
  Eval vm_compute in
    match initial_state rfc_key 1 test_nonce with
    | Ok st => st
    | Err _ => []
    end.

(** * The test suite, chacha20_test.py *)

(** The test functions are modelled by the verdict they return: what they
    print is left out, and so is the timing in [test_large_data].  The
    bytes that a test draws from the operating system, through
    [generate_key], [generate_nonce] and [os.urandom], are arguments of
    its model. *)

#[global] Instance byte_eq_dec : EqDecision byte := Byte.byte_eq_dec.

(** [l[i:j]] for [0 <= i <= j]. *)
Definition slice {A : Type} (l : list A) (i j : nat) : list A :=
  take (j - i) (drop i l).

Definition rotate_left_cases : list (Z * Z * Z) :=
  [(0x12345678, 4, 0x23456781);
   (0x00000001, 1, 0x00000002);
   (0x80000000, 1, 0x00000001);
   (0xFFFFFFFF, 16, 0xFFFFFFFF);
   (0x12345678, 0, 0x12345678);
   (0xF0F0F0F0, 8, 0xF0F0F0F0);
   (0x01020304, 16, 0x03040102)].

Definition test_rotate_left : bool :=
  let success :=
    foldl (fun success '(value, shift, expected) =>
             let result := rotate_left value shift in
             if decide (result <> expected) then false else success)
          true rotate_left_cases in
  let test_value := 0x12345678 in
  let rot_8 := rotate_left test_value 8 in
  let rot_16_composed := rotate_left rot_8 8 in
  let rot_16_direct := rotate_left test_value 16 in
  if decide (rot_16_composed = rot_16_direct) then success else false.

Definition test_quarter_round : res bool :=
  state ← quarter_round rfc_qr_state 2 7 8 13;
  Ok (bool_decide (state = rfc_qr_expected)).

Definition test_initial_state : res bool :=
  let key := rfc_key in
  let nonce := test_nonce in
  let counter := 1 in
  state ← initial_state key counter nonce;
  let expected_constants :=
    [0x61707865; 0x3320646e; 0x79622d32; 0x6b206574] in
  let success := true in
  let success :=
    if decide (slice state 0 4 <> expected_constants) then false
    else success in
  word12 ← getitem state 12;
  let success := if decide (word12 <> counter) then false else success in
  let success :=
    if decide (length state <> 16%nat) then false else success in
  expected_key_words ← struct_unpack_I 8 key;
  let actual_key_words := slice state 4 12 in
  let success :=
    if decide (actual_key_words <> expected_key_words) then false
    else success in
  expected_nonce_words ← struct_unpack_I 3 nonce;
  let actual_nonce_words := slice state 13 16 in
  let success :=
    if decide (actual_nonce_words <> expected_nonce_words) then false
    else success in
  Ok success.

Definition test_chacha20_block : res bool :=
  let expected_output := bytes_of_Zs rfc_keystream in
  result ← chacha20_block rfc_key 1 test_nonce;
  Ok (bool_decide (result = expected_output)).

(** The plaintext of RFC 8439, section 2.4.2, as the test has it. *)
Definition test_plaintext : list byte :=
  bytes_of_Zs
    [0x4c; 0x61; 0x64; 0x69; 0x65; 0x73; 0x20; 0x61; 0x6e; 0x64;
     0x20; 0x47; 0x65; 0x6e; 0x74; 0x6c; 0x65; 0x6d; 0x65; 0x6e;
     0x20; 0x6f; 0x66; 0x20; 0x74; 0x68; 0x65; 0x20; 0x63; 0x6c;
     0x61; 0x73; 0x73; 0x20; 0x6f; 0x66; 0x20; 0x27; 0x39; 0x39;
     0x3a; 0x20; 0x49; 0x66; 0x20; 0x49; 0x20; 0x63; 0x6f; 0x75;
     0x6c; 0x64; 0x20; 0x6f; 0x66; 0x66; 0x65; 0x72; 0x20; 0x79;
     0x6f; 0x75; 0x20; 0x6f; 0x6e; 0x6c; 0x79; 0x20; 0x6f; 0x6e;
     0x65; 0x20; 0x74; 0x69; 0x70; 0x20; 0x66; 0x6f; 0x72; 0x20;
     0x74; 0x68; 0x65; 0x20; 0x66; 0x75; 0x74; 0x75; 0x72; 0x65;
     0x2c; 0x20; 0x73; 0x75; 0x6e; 0x73; 0x63; 0x72; 0x65; 0x65;
     0x6e; 0x20; 0x77; 0x6f; 0x75; 0x6c; 0x64; 0x20; 0x62; 0x65;
     0x20; 0x69; 0x74; 0x2e].

Definition expected_start : list byte :=
  bytes_of_Zs
    [0x6e; 0x2e; 0x35; 0x9a; 0x25; 0x68; 0xf9; 0x80; 0x41; 0xba;
     0x07; 0x28; 0xdd; 0x0d; 0x69; 0x81; 0xe9; 0x7e; 0x7a; 0xec;
     0x1d; 0x43; 0x60; 0xc2; 0x0a; 0x27; 0xaf; 0xcc; 0xfd; 0x9f;
     0xae; 0x0b; 0xf9; 0x1b; 0x65; 0xc5; 0x52; 0x47; 0x33; 0xab;
     0x8f; 0x59; 0x3d; 0xab; 0xcd; 0x62; 0xb3; 0x57; 0x16; 0x39;
     0xd6; 0x24; 0xe6; 0x51; 0x52; 0xab; 0x8f; 0x53; 0x0c; 0x35;
     0x9f; 0x08; 0x61; 0xd8].

Definition test_chacha20_encryption : res bool :=
  ciphertext ← chacha20_encrypt rfc_key test_nonce test_plaintext 1;
  let encryption_success :=
    bool_decide (slice ciphertext 0 64 = expected_start) in
  decrypted ← chacha20_encrypt rfc_key test_nonce ciphertext 1;
  let decryption_success := bool_decide (decrypted = test_plaintext) in
  Ok (encryption_success && decryption_success).

(** [b"Test message for ChaCha20 encryption demonstration and validation."] *)
Definition test_message : list byte :=
  bytes_of_Zs
    [0x54; 0x65; 0x73; 0x74; 0x20; 0x6d; 0x65; 0x73; 0x73; 0x61;
     0x67; 0x65; 0x20; 0x66; 0x6f; 0x72; 0x20; 0x43; 0x68; 0x61;
     0x43; 0x68; 0x61; 0x32; 0x30; 0x20; 0x65; 0x6e; 0x63; 0x72;
     0x79; 0x70; 0x74; 0x69; 0x6f; 0x6e; 0x20; 0x64; 0x65; 0x6d;
     0x6f; 0x6e; 0x73; 0x74; 0x72; 0x61; 0x74; 0x69; 0x6f; 0x6e;
     0x20; 0x61; 0x6e; 0x64; 0x20; 0x76; 0x61; 0x6c; 0x69; 0x64;
     0x61; 0x74; 0x69; 0x6f; 0x6e; 0x2e].

(** [key] and [nonce] are the results of [generate_key()] and
    [generate_nonce()]; the initial counter is the default one, 1. *)
Definition test_encryption_decryption (key nonce : list byte) : res bool :=
  let message := test_message in
  encrypted ← chacha20_encrypt key nonce message 1;
  decrypted ← chacha20_encrypt key nonce encrypted 1;
  Ok (bool_decide (decrypted = message)).

Definition test_empty_input (key nonce : list byte) : res bool :=
  result ← chacha20_encrypt key nonce [] 1;
  Ok (bool_decide (result = [])).

(** [large_data] is the result of [os.urandom(1024)]. *)
Definition test_large_data (key nonce large_data : list byte) : res bool :=
  encrypted ← chacha20_encrypt key nonce large_data 1;
  decrypted ← chacha20_encrypt key nonce encrypted 1;
  Ok (bool_decide (decrypted = large_data)).

Definition test_sizes : list nat := [1; 32; 63; 64; 65; 128; 129]%nat.

(** [urandom] holds the results of the successive [os.urandom(size)]. *)
Definition test_different_block_sizes (key nonce : list byte)
    (urandom : list (list byte)) : res bool :=
  for_each (zip test_sizes urandom)
           (fun '(size, data) success =>
              encrypted ← chacha20_encrypt key nonce data 1;
              decrypted ← chacha20_encrypt key nonce encrypted 1;
              Ok (if decide (decrypted <> data) then false else success))
           true.

(** What one run of the suite draws from the operating system. *)
Record os_draws : Type := {
  roundtrip_key : list byte;
  roundtrip_nonce : list byte;
  empty_key : list byte;
  empty_nonce : list byte;
  large_key : list byte;
  large_nonce : list byte;
  large_data_drawn : list byte;
  sizes_key : list byte;
  sizes_nonce : list byte;
  sizes_data : list (list byte)
}.

(** [try: result = test_func() except Exception: result = False] *)
Definition attempt (r : res bool) : bool :=
  match r with
  | Ok b => b
  | Err _ => false
  end.

(** The verdicts that [run_all_tests] collects, in the order of its list
    of tests. *)
Definition test_results (d : os_draws) : list bool :=
  [attempt (Ok test_rotate_left);
   attempt test_quarter_round;
   attempt test_initial_state;
   attempt test_chacha20_block;
   attempt test_chacha20_encryption;
   attempt (test_encryption_decryption (roundtrip_key d) (roundtrip_nonce d));
   attempt (test_empty_input (empty_key d) (empty_nonce d));
   attempt (test_large_data (large_key d) (large_nonce d)
                            (large_data_drawn d));
   attempt (test_different_block_sizes (sizes_key d) (sizes_nonce d)
                                       (sizes_data d))].

Definition run_all_tests (d : os_draws) : bool :=
  let results := test_results d in
  let passed := length (List.filter (fun result : bool => result) results) in
  let total := length results in
  bool_decide (passed = total).

Definition sample_draws : os_draws :=
  {| roundtrip_key := rfc_key; roundtrip_nonce := rfc_block_nonce;
     empty_key := rfc_key; empty_nonce := test_nonce;
     large_key := rfc_key; large_nonce := test_nonce;
     large_data_drawn := replicate 1024 x2a;
     sizes_key := rfc_key; sizes_nonce := rfc_block_nonce;
     sizes_data := map (fun n => replicate n x07) test_sizes |}.

(** * Properties *)

(** ** The exception monad *)

Section res_facts.
Context {A B : Type}.

Lemma bind_Ok (m : res A) (f : A -> res B) (a : A) :
  m = Ok a -> m ≫= f = f a.
Proof. intros ->. reflexivity. Qed.

Lemma bind_Err (m : res A) (f : A -> res B) (e : error) :
  m = Err e -> m ≫= f = Err e.
Proof. intros ->. reflexivity. Qed.

Lemma comprehension_map (f : A -> res B) (g : A -> B) (xs : list A) :
  (forall x, x ∈ xs -> f x = Ok (g x)) ->
  comprehension f xs = Ok (map g xs).
Proof.
  induction xs as [|x xs IH]; intros Hf; simpl; [reflexivity|].
  rewrite (Hf x) by apply list_elem_of_here. simpl.
  rewrite IH; [reflexivity|].
  intros y Hy. apply Hf. now apply list_elem_of_further.
Qed.

Lemma comprehension_ext (f g : A -> res B) (xs : list A) :
  (forall x, x ∈ xs -> f x = g x) ->
  comprehension f xs = comprehension g xs.
Proof.
  induction xs as [|x xs IH]; intros Hf; simpl; [reflexivity|].
  rewrite (Hf x) by apply list_elem_of_here.
  rewrite IH; [reflexivity|].
  intros y Hy. apply Hf. now apply list_elem_of_further.
Qed.
End res_facts.

Lemma getitem_lookup {A : Type} (l : list A) (i : nat) (x : A) :
  l !! i = Some x -> getitem l i = Ok x.
Proof. unfold getitem. now intros ->. Qed.

Lemma getitem_total {A : Type} `{!Inhabited A} (l : list A) (i : nat) :
  (i < length l)%nat -> getitem l i = Ok (l !!! i).
Proof.
  intros Hi. apply getitem_lookup. now apply list_lookup_lookup_total_lt.
Qed.

Lemma getitem_out {A : Type} (l : list A) (i : nat) :
  (length l <= i)%nat -> getitem l i = Err IndexError.
Proof.
  intros Hi. unfold getitem. now rewrite lookup_ge_None_2.
Qed.

Lemma setitem_in {A : Type} (l : list A) (i : nat) (v : A) :
  (i < length l)%nat -> setitem l i v = Ok (<[i:=v]> l).
Proof. intros Hi. unfold setitem. now rewrite decide_True. Qed.

Lemma setitem_out {A : Type} (l : list A) (i : nat) (v : A) :
  (length l <= i)%nat -> setitem l i v = Err IndexError.
Proof. intros Hi. unfold setitem. rewrite decide_False; [reflexivity|lia]. Qed.

(** ** Bytes *)

Lemma byte_to_Z_range (b : byte) : 0 <= byte_to_Z b < 256.
Proof.
  unfold byte_to_Z. pose proof (Byte.to_N_bounded b). lia.
Qed.

Lemma byte_to_Z_inj (b1 b2 : byte) : byte_to_Z b1 = byte_to_Z b2 -> b1 = b2.
Proof.
  unfold byte_to_Z. intros H. apply N2Z.inj in H.
  pose proof (Byte.of_to_N b1) as H1. rewrite H in H1.
  rewrite Byte.of_to_N in H1. congruence.
Qed.

Lemma byte_of_to_Z (b : byte) : byte_of_Z (byte_to_Z b) = Ok b.
Proof.
  unfold byte_of_Z, byte_to_Z. rewrite decide_False by lia.
  now rewrite N2Z.id, Byte.of_to_N.
Qed.

Lemma byte_of_Z_Ok (z : Z) :
  0 <= z < 256 -> exists b, byte_of_Z z = Ok b /\ byte_to_Z b = z.
Proof.
  intros Hz. unfold byte_of_Z. rewrite decide_False by lia.
  destruct (Byte.of_N (Z.to_N z)) as [b|] eqn:E.
  - exists b. split; [reflexivity|]. apply Byte.to_of_N in E.
    unfold byte_to_Z. rewrite E. lia.
  - apply Byte.of_N_None_iff in E. lia.
Qed.

Lemma byte_of_Z_inv (z : Z) (b : byte) :
  byte_of_Z z = Ok b -> byte_to_Z b = z.
Proof.
  unfold byte_of_Z. destruct (decide (z < 0)); [discriminate|].
  destruct (Byte.of_N (Z.to_N z)) as [b'|] eqn:E; [|discriminate].
  intros [= ->]. apply Byte.to_of_N in E. unfold byte_to_Z. rewrite E. lia.
Qed.

(** An int outside [range(256)] is refused, never truncated. *)
Lemma byte_of_Z_out (z : Z) : ~ 0 <= z < 256 -> byte_of_Z z = Err ValueError.
Proof.
  intros Hz. unfold byte_of_Z. destruct (decide (z < 0)); [reflexivity|].
  destruct (Byte.of_N (Z.to_N z)) as [b|] eqn:E; [|reflexivity].
  apply Byte.to_of_N in E. pose proof (Byte.to_N_bounded b). lia.
Qed.

(** ** 32-bit words *)

Lemma mask32_mod (x : Z) : Z.land x 0xFFFFFFFF = x mod 2 ^ 32.
Proof. change 0xFFFFFFFF with (Z.ones 32). now rewrite Z.land_ones. Qed.

Lemma mask32_word (x : Z) : word32 (Z.land x 0xFFFFFFFF).
Proof. rewrite mask32_mod. unfold word32. apply Z.mod_pos_bound. lia. Qed.

Lemma mask32_id (x : Z) : word32 x -> Z.land x 0xFFFFFFFF = x.
Proof. intros Hx. rewrite mask32_mod. now apply Z.mod_small. Qed.

Lemma rotate_left_word (x n : Z) : word32 (rotate_left x n).
Proof. apply mask32_word. Qed.

Lemma lxor_bound (n x y : Z) :
  0 < n -> 0 <= x < 2 ^ n -> 0 <= y < 2 ^ n -> 0 <= Z.lxor x y < 2 ^ n.
Proof.
  intros Hn [Hx0 Hx] [Hy0 Hy]. split; [now apply Z.lxor_nonneg|].
  destruct (Z.eq_dec (Z.lxor x y) 0) as [->|Hne].
  { apply Z.pow_pos_nonneg; lia. }
  apply Z.log2_lt_pow2; [pose proof (proj2 (Z.lxor_nonneg x y)); lia|].
  pose proof (Z.log2_lxor x y Hx0 Hy0) as Hl.
  assert (Z.log2 x < n).
  { destruct (Z.eq_dec x 0) as [->|]; [simpl; lia|].
    apply Z.log2_lt_pow2; lia. }
  assert (Z.log2 y < n).
  { destruct (Z.eq_dec y 0) as [->|]; [simpl; lia|].
    apply Z.log2_lt_pow2; lia. }
  lia.
Qed.

Lemma lxor_word (x y : Z) : word32 x -> word32 y -> word32 (Z.lxor x y).
Proof. unfold word32. apply lxor_bound. lia. Qed.

Lemma lor_disjoint_add (a b n : Z) :
  0 <= n -> 0 <= b < 2 ^ n -> Z.lor (a * 2 ^ n) b = a * 2 ^ n + b.
Proof.
  intros Hn Hb.
  assert (Hland : Z.land (a * 2 ^ n) b = 0).
  { apply Z.bits_inj'. intros i Hi. rewrite Z.land_spec, Z.bits_0.
    destruct (Z.lt_ge_cases i n) as [Hlt|Hge].
    - rewrite Z.mul_pow2_bits_low by lia. reflexivity.
    - rewrite <- (Z.mod_small b (2 ^ n)) by lia.
      rewrite Z.mod_pow2_bits_high by lia. apply andb_false_r. }
  rewrite <- Z.lxor_lor by exact Hland.
  symmetry. now apply Z.add_nocarry_lxor.
Qed.

Lemma rotl32_word (x n : Z) : word32 x -> 0 <= n < 32 -> word32 (rotl32 x n).
Proof.
  unfold word32, rotl32. intros Hx Hn.
  assert (H32 : 2 ^ 32 = 2 ^ (32 - n) * 2 ^ n).
  { rewrite <- Z.pow_add_r by lia. f_equal. lia. }
  assert (Hp : 0 < 2 ^ (32 - n)) by (apply Z.pow_pos_nonneg; lia).
  assert (Hq : 0 < 2 ^ n) by (apply Z.pow_pos_nonneg; lia).
  pose proof (Z.mod_pos_bound x (2 ^ (32 - n)) Hp) as Hr.
  assert (0 <= x / 2 ^ (32 - n) < 2 ^ n).
  { split; [apply Z.div_pos; lia|]. apply Z.div_lt_upper_bound; lia. }
  nia.
Qed.

Lemma rotate_left_rotl32 (x n : Z) :
  word32 x -> 0 <= n < 32 -> rotate_left x n = rotl32 x n.
Proof.
  intros Hx Hn. pose proof (rotl32_word x n Hx Hn) as Hw.
  unfold rotate_left. cbv zeta. rewrite (mask32_id x Hx).
  assert (Hs : Z.land n 31 = n).
  { change 31 with (Z.ones 5). rewrite Z.land_ones by lia.
    apply Z.mod_small. change (2 ^ 5) with 32. lia. }
  rewrite Hs, mask32_mod.
  rewrite Z.shiftl_mul_pow2, Z.shiftr_div_pow2 by lia.
  unfold word32 in Hx.
  assert (H32 : 2 ^ 32 = 2 ^ (32 - n) * 2 ^ n).
  { rewrite <- Z.pow_add_r by lia. f_equal. lia. }
  assert (Hp : 0 < 2 ^ (32 - n)) by (apply Z.pow_pos_nonneg; lia).
  assert (Hq : 0 < 2 ^ n) by (apply Z.pow_pos_nonneg; lia).
  assert (Hd : 0 <= x / 2 ^ (32 - n) < 2 ^ n).
  { split; [apply Z.div_pos; lia|]. apply Z.div_lt_upper_bound; lia. }
  rewrite lor_disjoint_add by lia.
  unfold rotl32 in *.
  pose proof (Z.div_mod x (2 ^ (32 - n)) ltac:(lia)) as Hdm.
  replace (x * 2 ^ n + x / 2 ^ (32 - n))
    with ((x mod 2 ^ (32 - n)) * 2 ^ n + x / 2 ^ (32 - n)
          + (x / 2 ^ (32 - n)) * 2 ^ 32).
  - rewrite Z.mod_add by lia. apply Z.mod_small. exact Hw.
  - rewrite H32.
    generalize dependent (x / 2 ^ (32 - n)).
    generalize dependent (x mod 2 ^ (32 - n)).
    intros r q _ _ ->. ring.
Qed.

(** ** The quarter round as an ARX sequence *)

Lemma add32_word (x y : Z) : word32 (add32 x y).
Proof. unfold add32, word32. apply Z.mod_pos_bound. lia. Qed.

Lemma words32_lookup (st : list Z) (i : nat) :
  words32 st -> (i < length st)%nat -> word32 (st !!! i).
Proof. intros Hst Hi. now apply Forall_lookup_total_1. Qed.

Lemma arx_line_length (st : list Z) (x y z : nat) (n : Z) :
  length (arx_line st x y z n) = length st.
Proof. unfold arx_line. cbv zeta. now rewrite !length_insert. Qed.

Lemma arx_line_words (st : list Z) (x y z : nat) (n : Z) :
  words32 st -> (x < length st)%nat -> (z < length st)%nat -> 0 <= n < 32 ->
  words32 (arx_line st x y z n).
Proof.
  intros Hst Hx Hz Hn. unfold arx_line. cbv zeta.
  assert (H1 : words32 (<[x:=add32 (st !!! x) (st !!! y)]> st)).
  { apply Forall_insert; [exact Hst|apply add32_word]. }
  set (st1 := <[x:=add32 (st !!! x) (st !!! y)]> st) in *.
  assert (Hl1 : length st1 = length st) by apply length_insert.
  assert (H2 : words32 (<[z:=Z.lxor (st1 !!! z) (st1 !!! x)]> st1)).
  { apply Forall_insert; [exact H1|].
    apply lxor_word; apply words32_lookup; auto; lia. }
  set (st2 := <[z:=Z.lxor (st1 !!! z) (st1 !!! x)]> st1) in *.
  assert (Hl2 : length st2 = length st).
  { unfold st2. now rewrite length_insert. }
  apply Forall_insert; [exact H2|].
  apply rotl32_word; [|exact Hn]. apply words32_lookup; auto; lia.
Qed.

(** The three statements of one line of [quarter_round] compute
    [arx_line] on a state of 32-bit words. *)
Lemma arx_line_run {B : Type} (st : list Z) (x y z : nat) (n : Z)
    (k : list Z -> res B) :
  words32 st ->
  (x < length st)%nat -> (y < length st)%nat -> (z < length st)%nat ->
  0 <= n < 32 ->
  (st1 ← add_into st x y; st2 ← xor_into st1 z x;
   st3 ← rotate_at st2 z n; k st3)
  = k (arx_line st x y z n).
Proof.
  intros Hst Hx Hy Hz Hn. unfold arx_line. cbv zeta.
  unfold add_into at 1.
  rewrite (getitem_total st x Hx), (getitem_total st y Hy). simpl.
  rewrite setitem_in by exact Hx. simpl.
  rewrite mask32_mod. fold (add32 (st !!! x) (st !!! y)).
  assert (H1 : words32 (<[x:=add32 (st !!! x) (st !!! y)]> st)).
  { apply Forall_insert; [exact Hst|apply add32_word]. }
  set (st1 := <[x:=add32 (st !!! x) (st !!! y)]> st) in *.
  assert (Hl1 : length st1 = length st) by apply length_insert.
  unfold xor_into at 1.
  rewrite (getitem_total st1 z), (getitem_total st1 x) by lia. simpl.
  rewrite setitem_in by lia. simpl.
  set (st2 := <[z:=Z.lxor (st1 !!! z) (st1 !!! x)]> st1) in *.
  assert (Hl2 : length st2 = length st).
  { unfold st2. now rewrite length_insert. }
  unfold rotate_at at 1.
  rewrite (getitem_total st2 z) by lia. simpl.
  rewrite setitem_in by lia. simpl.
  rewrite rotate_left_rotl32; [reflexivity| |exact Hn].
  unfold st2. rewrite list_lookup_total_insert_eq by lia.
  apply lxor_word; apply words32_lookup; auto; lia.
Qed.

Lemma quarter_round_arx (st : list Z) (a b c d : nat) :
  words32 st ->
  (a < length st)%nat -> (b < length st)%nat ->
  (c < length st)%nat -> (d < length st)%nat ->
  quarter_round st a b c d = Ok (arx_quarter_round st a b c d).
Proof.
  intros Hst Ha Hb Hc Hd. unfold quarter_round, arx_quarter_round.
  cbv zeta.
  rewrite arx_line_run by (auto; lia).
  set (s1 := arx_line st a b d 16).
  assert (Hl1 : length s1 = length st) by apply arx_line_length.
  assert (Hw1 : words32 s1) by (apply arx_line_words; auto; lia).
  rewrite arx_line_run by (auto; lia).
  set (s2 := arx_line s1 c d b 12).
  assert (Hl2 : length s2 = length st).
  { unfold s2. now rewrite arx_line_length. }
  assert (Hw2 : words32 s2) by (apply arx_line_words; auto; lia).
  rewrite arx_line_run by (auto; lia).
  set (s3 := arx_line s2 a b d 8).
  assert (Hl3 : length s3 = length st).
  { unfold s3. now rewrite arx_line_length. }
  assert (Hw3 : words32 s3) by (apply arx_line_words; auto; lia).
  rewrite arx_line_run by (auto; lia).
  reflexivity.
Qed.

Lemma arx_quarter_round_length (st : list Z) (a b c d : nat) :
  length (arx_quarter_round st a b c d) = length st.
Proof. unfold arx_quarter_round. cbv zeta. now rewrite !arx_line_length. Qed.

Lemma arx_quarter_round_words (st : list Z) (a b c d : nat) :
  words32 st ->
  (a < length st)%nat -> (b < length st)%nat ->
  (c < length st)%nat -> (d < length st)%nat ->
  words32 (arx_quarter_round st a b c d).
Proof.
  intros Hst Ha Hb Hc Hd. unfold arx_quarter_round. cbv zeta.
  repeat (apply arx_line_words; rewrite ?arx_line_length; auto; try lia).
Qed.

(** ** The block function without its log *)

Lemma double_round_run_log (ws : list Z) (calls : qr_log) :
  double_round_run (ws, calls)
  = (ws' ← double_round ws;
     Ok (ws', calls ++ column_rounds ++ diagonal_rounds)).
Proof.
  unfold double_round_run, double_round, call_quarter_round.
  repeat match goal with
         | |- context [quarter_round ?w ?a ?b ?c ?d] =>
             destruct (quarter_round w a b c d) as [?w|?e];
             cbn [mbind res_bind]; [|reflexivity]
         end.
  rewrite <- !app_assoc. reflexivity.
Qed.

Lemma rounds_run_log (xs : list nat) (ws : list Z) (calls : qr_log) :
  for_each xs (fun _ acc => double_round_run acc) (ws, calls)
  = (ws' ← for_each xs (fun _ w => double_round w) ws;
     Ok (ws', calls ++ concat (replicate (length xs)
                                 (column_rounds ++ diagonal_rounds)))).
Proof.
  revert ws calls. induction xs as [|x xs IH]; intros ws calls.
  - cbn [for_each length replicate concat mbind res_bind].
    now rewrite app_nil_r.
  - cbn [for_each length replicate concat]. rewrite double_round_run_log.
    destruct (double_round ws) as [w|e]; cbn [mbind res_bind];
      [|reflexivity].
    rewrite IH, <- !app_assoc. reflexivity.
Qed.

(** The block function for any loop range, log and keystream apart. *)
Lemma block_run_split (xs : list nat) (state : list Z) :
  (rounds ← for_each xs (fun _ acc => double_round_run acc) (state, []);
   let '(working_state, calls) := rounds in
   final_state ← add_states working_state state;
   keystream ← struct_pack_I 16 final_state;
   Ok (keystream, calls))
  = (keystream ← (w ← for_each xs (fun _ ws => double_round ws) state;
                  final_state ← add_states w state;
                  struct_pack_I 16 final_state);
     Ok (keystream,
         concat (replicate (length xs) (column_rounds ++ diagonal_rounds)))).
Proof.
  rewrite rounds_run_log.
  destruct (for_each xs (fun _ w => double_round w) state) as [w|e];
    cbn [mbind res_bind]; [|reflexivity].
  destruct (add_states w state) as [f|e]; cbn [mbind res_bind];
    reflexivity.
Qed.

Lemma chacha20_block_run_unfold (key nonce : list byte) (counter : Z) :
  chacha20_block_run key counter nonce
  = (keystream ← (state ← initial_state key counter nonce;
                  w ← for_each (range 10) (fun _ ws => double_round ws)
                               state;
                  final_state ← add_states w state;
                  struct_pack_I 16 final_state);
     Ok (keystream,
         concat (replicate 10 (column_rounds ++ diagonal_rounds)))).
Proof.
  unfold chacha20_block_run. generalize (initial_state key counter nonce).
  intros [state|e]; [|reflexivity]. cbn [mbind res_bind]. cbv zeta.
  exact (block_run_split (range 10) state).
Qed.

Lemma chacha20_block_unfold (key nonce : list byte) (counter : Z) :
  chacha20_block key counter nonce
  = (state ← initial_state key counter nonce;
     w ← for_each (range 10) (fun _ ws => double_round ws) state;
     final_state ← add_states w state; struct_pack_I 16 final_state).
Proof.
  unfold chacha20_block. rewrite chacha20_block_run_unfold.
  generalize (state ← initial_state key counter nonce;
              w ← for_each (range 10) (fun _ ws => double_round ws) state;
              final_state ← add_states w state;
              struct_pack_I 16 final_state).
  intros [ks|e]; reflexivity.
Qed.

(** ** The block function only reads its words modulo 2^32 *)

Lemma res_rel_eq {A : Type} (m m' : res A) : res_rel eq m m' -> m = m'.
Proof. destruct m, m'; simpl; intros H; congruence || contradiction. Qed.

Lemma res_rel_bind {A B : Type} (R : A -> A -> Prop) (S : B -> B -> Prop)
    (m m' : res A) (f f' : A -> res B) :
  res_rel R m m' ->
  (forall a a', R a a' -> res_rel S (f a) (f' a')) ->
  res_rel S (m ≫= f) (m' ≫= f').
Proof.
  destruct m, m'; simpl; intros Hm Hf; try contradiction; auto.
Qed.

Lemma res_rel_for_each {A S : Type} (R : S -> S -> Prop) (xs : list A)
    (f f' : A -> S -> res S) (s s' : S) :
  (forall x a a', R a a' -> res_rel R (f x a) (f' x a')) ->
  R s s' ->
  res_rel R (for_each xs f s) (for_each xs f' s').
Proof.
  intros Hf. revert s s'.
  induction xs as [|x xs IH]; intros s s' Hs; simpl; [exact Hs|].
  eapply res_rel_bind; [apply Hf, Hs|]. intros a a' Ha. now apply IH.
Qed.

Lemma eqm32_mask (x y : Z) :
  eqm32 x y -> Z.land x 0xFFFFFFFF = Z.land y 0xFFFFFFFF.
Proof. unfold eqm32. now rewrite !mask32_mod. Qed.

Lemma eqm32_add (x x' y y' : Z) :
  eqm32 x x' -> eqm32 y y' -> eqm32 (x + y) (x' + y').
Proof.
  unfold eqm32. intros Hx Hy.
  rewrite (Z.add_mod x y), (Z.add_mod x' y') by lia. now rewrite Hx, Hy.
Qed.

Lemma land_lxor_distr (x y m : Z) :
  Z.land (Z.lxor x y) m = Z.lxor (Z.land x m) (Z.land y m).
Proof.
  apply Z.bits_inj'. intros i _.
  rewrite Z.lxor_spec, !Z.land_spec, Z.lxor_spec.
  now destruct (Z.testbit x i), (Z.testbit y i), (Z.testbit m i).
Qed.

Lemma eqm32_lxor (x x' y y' : Z) :
  eqm32 x x' -> eqm32 y y' -> eqm32 (Z.lxor x y) (Z.lxor x' y').
Proof.
  intros Hx%eqm32_mask Hy%eqm32_mask. unfold eqm32.
  rewrite <- !mask32_mod, !land_lxor_distr. now rewrite Hx, Hy.
Qed.

Lemma eqm32_rotate_left (x x' n : Z) :
  eqm32 x x' -> rotate_left x n = rotate_left x' n.
Proof. intros Hx%eqm32_mask. unfold rotate_left. now rewrite Hx. Qed.

Lemma eqm32_refl (x : Z) : eqm32 x x.
Proof. reflexivity. Qed.

Lemma eqm32_wrap (x : Z) : eqm32 x (x mod 2 ^ 32).
Proof. unfold eqm32. now rewrite Z.mod_mod by lia. Qed.

Lemma getitem_eqm (s s' : list Z) (i : nat) :
  eqm_states s s' -> res_rel eqm32 (getitem s i) (getitem s' i).
Proof.
  intros Hs. unfold getitem.
  destruct (s !! i) as [x|] eqn:E.
  - destruct (Forall2_lookup_l _ _ _ _ _ Hs E) as (y & -> & Hxy). exact Hxy.
  - apply lookup_ge_None in E. rewrite (Forall2_length _ _ _ Hs) in E.
    apply lookup_ge_None in E. now rewrite E.
Qed.

Lemma setitem_eqm (s s' : list Z) (i : nat) (v v' : Z) :
  eqm_states s s' -> eqm32 v v' ->
  res_rel eqm_states (setitem s i v) (setitem s' i v').
Proof.
  intros Hs Hv. unfold setitem. rewrite <- (Forall2_length _ _ _ Hs).
  destruct (decide (i < length s)%nat); simpl; [|reflexivity].
  now apply Forall2_insert.
Qed.

Lemma add_into_eqm (s s' : list Z) (i j : nat) :
  eqm_states s s' -> res_rel eqm_states (add_into s i j) (add_into s' i j).
Proof.
  intros Hs. unfold add_into.
  eapply res_rel_bind; [apply getitem_eqm, Hs|]. intros x x' Hx.
  eapply res_rel_bind; [apply getitem_eqm, Hs|]. intros y y' Hy.
  apply setitem_eqm; [exact Hs|].
  rewrite (eqm32_mask (x + y) (x' + y')) by now apply eqm32_add.
  apply eqm32_refl.
Qed.

Lemma xor_into_eqm (s s' : list Z) (i j : nat) :
  eqm_states s s' -> res_rel eqm_states (xor_into s i j) (xor_into s' i j).
Proof.
  intros Hs. unfold xor_into.
  eapply res_rel_bind; [apply getitem_eqm, Hs|]. intros x x' Hx.
  eapply res_rel_bind; [apply getitem_eqm, Hs|]. intros y y' Hy.
  apply setitem_eqm; [exact Hs|]. now apply eqm32_lxor.
Qed.

Lemma rotate_at_eqm (s s' : list Z) (i : nat) (n : Z) :
  eqm_states s s' ->
  res_rel eqm_states (rotate_at s i n) (rotate_at s' i n).
Proof.
  intros Hs. unfold rotate_at.
  eapply res_rel_bind; [apply getitem_eqm, Hs|]. intros x x' Hx.
  apply setitem_eqm; [exact Hs|].
  rewrite (eqm32_rotate_left x x' n Hx). apply eqm32_refl.
Qed.

Lemma quarter_round_eqm (s s' : list Z) (a b c d : nat) :
  eqm_states s s' ->
  res_rel eqm_states (quarter_round s a b c d) (quarter_round s' a b c d).
Proof.
  intros Hs. unfold quarter_round.
  repeat (eapply res_rel_bind;
          [first [now apply add_into_eqm | now apply xor_into_eqm
                 | now apply rotate_at_eqm]
          |clear s s' Hs; intros s s' Hs]).
  exact Hs.
Qed.

Lemma double_round_eqm (s s' : list Z) :
  eqm_states s s' -> res_rel eqm_states (double_round s) (double_round s').
Proof.
  intros Hs. unfold double_round.
  repeat (eapply res_rel_bind;
          [now apply quarter_round_eqm|clear s s' Hs; intros s s' Hs]).
  exact Hs.
Qed.

Lemma add_states_eqm (w w' s s' : list Z) :
  eqm_states w w' -> eqm_states s s' -> add_states w s = add_states w' s'.
Proof.
  intros Hw Hs. unfold add_states. apply comprehension_ext. intros i _.
  apply res_rel_eq.
  eapply res_rel_bind; [apply getitem_eqm, Hw|]. intros x x' Hx.
  eapply res_rel_bind; [apply getitem_eqm, Hs|]. intros y y' Hy.
  simpl. apply eqm32_mask. now apply eqm32_add.
Qed.

Lemma res_rel_bind_eq {A B : Type} (R : A -> A -> Prop) (m m' : res A)
    (f f' : A -> res B) :
  res_rel R m m' ->
  (forall a a', R a a' -> f a = f' a') ->
  m ≫= f = m' ≫= f'.
Proof.
  destruct m, m'; simpl; intros Hm Hf; try contradiction; auto.
  now subst.
Qed.

(** The rounds, the final addition and the packing on related states. *)
Lemma block_rounds_eqm (xs : list nat) (s s' : list Z) :
  eqm_states s s' ->
  (w ← for_each xs (fun _ ws => double_round ws) s;
   final_state ← add_states w s; struct_pack_I 16 final_state)
  = (w ← for_each xs (fun _ ws => double_round ws) s';
     final_state ← add_states w s'; struct_pack_I 16 final_state).
Proof.
  intros Hs. apply (res_rel_bind_eq eqm_states).
  - apply res_rel_for_each; [|exact Hs].
    intros _ a a' Ha. now apply double_round_eqm.
  - intros w w' Hw. now rewrite (add_states_eqm w w' s s' Hw Hs).
Qed.

(** A counter outside 32 bits yields the block of its residue. *)
Lemma chacha20_block_eqm (key nonce : list byte) (c c' : Z) :
  eqm32 c c' -> chacha20_block key c nonce = chacha20_block key c' nonce.
Proof.
  intros Hc. rewrite !chacha20_block_unfold. unfold initial_state.
  generalize (range 10). intros xs. generalize constants. intros cs.
  destruct (struct_unpack_I 8 key) as [kw|e]; [|reflexivity].
  destruct (struct_unpack_I 3 nonce) as [nw|e]; [|reflexivity].
  cbn [mbind res_bind]. apply block_rounds_eqm.
  apply Forall2_app; [apply Forall_Forall2_diag, Forall_true, eqm32_refl|].
  apply Forall2_app; [apply Forall_Forall2_diag, Forall_true, eqm32_refl|].
  apply Forall2_app; [now constructor|].
  apply Forall_Forall2_diag, Forall_true, eqm32_refl.
Qed.

(** ** Little-endian words *)

Lemma le_word_arith (b0 b1 b2 b3 : byte) :
  le_word b0 b1 b2 b3
  = byte_to_Z b0 + 2 ^ 8 * byte_to_Z b1 + 2 ^ 16 * byte_to_Z b2
    + 2 ^ 24 * byte_to_Z b3.
Proof.
  unfold le_word.
  pose proof (byte_to_Z_range b0). pose proof (byte_to_Z_range b1).
  pose proof (byte_to_Z_range b2). pose proof (byte_to_Z_range b3).
  rewrite !Z.shiftl_mul_pow2 by lia.
  rewrite (Z.lor_comm (byte_to_Z b2 * 2 ^ 16)).
  rewrite (lor_disjoint_add (byte_to_Z b3) _ 24) by lia.
  rewrite (Z.lor_comm (byte_to_Z b1 * 2 ^ 8)).
  replace (byte_to_Z b3 * 2 ^ 24 + byte_to_Z b2 * 2 ^ 16)
    with ((byte_to_Z b3 * 2 ^ 8 + byte_to_Z b2) * 2 ^ 16) by ring.
  rewrite lor_disjoint_add by lia.
  rewrite Z.lor_comm.
  replace ((byte_to_Z b3 * 2 ^ 8 + byte_to_Z b2) * 2 ^ 16
           + byte_to_Z b1 * 2 ^ 8)
    with (((byte_to_Z b3 * 2 ^ 8 + byte_to_Z b2) * 2 ^ 8 + byte_to_Z b1)
          * 2 ^ 8) by ring.
  rewrite lor_disjoint_add by lia. ring.
Qed.

Lemma le_word_word (b0 b1 b2 b3 : byte) : word32 (le_word b0 b1 b2 b3).
Proof.
  rewrite le_word_arith. unfold word32.
  pose proof (byte_to_Z_range b0). pose proof (byte_to_Z_range b1).
  pose proof (byte_to_Z_range b2). pose proof (byte_to_Z_range b3). lia.
Qed.

Lemma le_words_length (n : nat) (bs : list byte) :
  length bs = (4 * n)%nat -> length (le_words bs) = n.
Proof.
  revert bs. induction n as [|n IH]; intros bs Hl.
  - destruct bs; [reflexivity|discriminate].
  - destruct bs as [|b0 [|b1 [|b2 [|b3 rest]]]]; simpl in Hl; try lia.
    simpl. f_equal. apply IH. lia.
Qed.

Lemma le_words_words (bs : list byte) : words32 (le_words bs).
Proof.
  assert (H : forall n (l : list byte), (length l <= n)%nat ->
                                        words32 (le_words l)).
  { induction n as [|n IH]; intros l Hl.
    - destruct l; [constructor|simpl in Hl; lia].
    - destruct l as [|b0 [|b1 [|b2 [|b3 rest]]]]; try constructor.
      + apply le_word_word.
      + apply IH. simpl in Hl. lia. }
  now apply (H (length bs)).
Qed.

Lemma le_words_lookup (n : nat) (bs : list byte) (i : nat) :
  length bs = (4 * n)%nat -> (i < n)%nat ->
  le_words bs !! i = Some (le32_at bs i).
Proof.
  revert bs i. induction n as [|n IH]; intros bs i Hl Hi; [lia|].
  destruct bs as [|b0 [|b1 [|b2 [|b3 rest]]]]; simpl in Hl; try lia.
  destruct i as [|i].
  - simpl. f_equal. apply le_word_arith.
  - simpl. rewrite (IH rest i) by lia. f_equal. unfold le32_at.
    replace (4 * S i)%nat with (S (S (S (S (4 * i))))) by lia.
    reflexivity.
Qed.

(** ** Packing words *)

Lemma comprehension_bytes {A : Type} (h : A -> Z) (xs : list A) :
  (forall x, x ∈ xs -> 0 <= h x < 256) ->
  exists bs, comprehension (fun x => byte_of_Z (h x)) xs = Ok bs
             /\ map byte_to_Z bs = map h xs.
Proof.
  induction xs as [|x xs IH]; intros Hh.
  - exists []. split; reflexivity.
  - destruct (byte_of_Z_Ok (h x)) as (b & Hb & Hbz).
    { apply Hh, list_elem_of_here. }
    destruct IH as (bs & Hbs & Hbsz).
    { intros y Hy. now apply Hh, list_elem_of_further. }
    exists (b :: bs). split.
    + simpl. rewrite Hb. simpl. rewrite Hbs. reflexivity.
    + simpl. now rewrite Hbz, Hbsz.
Qed.

Lemma pack_word_Ok (w : Z) :
  word32 w ->
  exists bs, pack_word w = Ok bs /\ map byte_to_Z bs = word_le_bytes w.
Proof.
  intros Hw. unfold pack_word, MASK32. unfold word32 in Hw.
  rewrite decide_True by lia.
  assert (Hbyte : forall k, Z.land (Z.shiftr w (8 * Z.of_nat k)) 0xFF
                            = (w / 2 ^ (8 * Z.of_nat k)) mod 2 ^ 8).
  { intros k. change 0xFF with (Z.ones 8).
    rewrite Z.land_ones by lia. now rewrite Z.shiftr_div_pow2 by lia. }
  destruct (comprehension_bytes
              (fun k => Z.land (Z.shiftr w (8 * Z.of_nat k)) 0xFF) (range 4))
    as (bs & Hbs & Hz).
  { intros k _. rewrite Hbyte. change 256 with (2 ^ 8).
    apply Z.mod_pos_bound. lia. }
  exists bs. split; [exact Hbs|]. rewrite Hz. unfold range, word_le_bytes.
  simpl map. rewrite !Hbyte. simpl Z.of_nat.
  change (8 * 0) with 0. rewrite Z.pow_0_r, Z.div_1_r. reflexivity.
Qed.

(** Nothing is packed from a value that is not a 32-bit word. *)
Lemma pack_word_out (w : Z) : ~ word32 w -> pack_word w = Err StructError.
Proof.
  intros Hw. unfold pack_word, MASK32. unfold word32 in Hw.
  rewrite decide_False by lia. reflexivity.
Qed.

Lemma struct_pack_I_Ok (n : nat) (ws : list Z) :
  length ws = n -> words32 ws ->
  exists out, struct_pack_I n ws = Ok out
              /\ map byte_to_Z out = serialize ws
              /\ length out = (4 * n)%nat.
Proof.
  intros Hl Hws. unfold struct_pack_I. rewrite decide_True by exact Hl.
  subst n.
  assert (H : exists chunks, comprehension pack_word ws = Ok chunks
                /\ map byte_to_Z (concat chunks) = serialize ws
                /\ length (concat chunks) = (4 * length ws)%nat).
  { induction Hws as [|w ws Hw Hws IH].
    - exists []. repeat split.
    - destruct (pack_word_Ok w Hw) as (bs & Hbs & Hz).
      destruct IH as (chunks & Hc & Hcz & Hcl).
      exists (bs :: chunks). split; [|split].
      + simpl. rewrite Hbs. simpl. rewrite Hc. reflexivity.
      + simpl. rewrite map_app, Hz, Hcz. reflexivity.
      + simpl. rewrite length_app, Hcl.
        apply (f_equal (@length Z)) in Hz. rewrite length_map in Hz.
        rewrite Hz. simpl. lia. }
  destruct H as (chunks & Hc & Hcz & Hcl).
  exists (concat chunks). rewrite Hc. simpl. auto.
Qed.

(** ** The block function *)

Lemma quarter_round_run {B : Type} (st : list Z) (a b c d : nat)
    (k : list Z -> res B) :
  state16 st -> (a < 16)%nat -> (b < 16)%nat -> (c < 16)%nat ->
  (d < 16)%nat ->
  (ws ← quarter_round st a b c d; k ws) = k (apply_qr st (a, b, c, d))
  /\ state16 (apply_qr st (a, b, c, d)).
Proof.
  intros [Hl Hw] Ha Hb Hc Hd. split.
  - unfold apply_qr. rewrite quarter_round_arx by (auto; lia).
    cbn [mbind res_bind]. reflexivity.
  - unfold apply_qr. split.
    + now rewrite arx_quarter_round_length.
    + apply arx_quarter_round_words; auto; lia.
Qed.

Lemma double_round_nested (st : list Z) :
  state16 st ->
  let st8 :=
    apply_qr (apply_qr (apply_qr (apply_qr (apply_qr (apply_qr
      (apply_qr (apply_qr st (0, 4, 8, 12)%nat) (1, 5, 9, 13)%nat)
      (2, 6, 10, 14)%nat) (3, 7, 11, 15)%nat) (0, 5, 10, 15)%nat)
      (1, 6, 11, 12)%nat) (2, 7, 8, 13)%nat) (3, 4, 9, 14)%nat in
  double_round st = Ok st8 /\ state16 st8.
Proof.
  intros H0. cbv zeta. unfold double_round.
  destruct (quarter_round_run (B:=list Z) st 0 4 8 12) with (k:=fun ws : list Z =>
    ws ← quarter_round ws 1 5 9 13;
    ws ← quarter_round ws 2 6 10 14;
    ws ← quarter_round ws 3 7 11 15;
    ws ← quarter_round ws 0 5 10 15;
    ws ← quarter_round ws 1 6 11 12;
    ws ← quarter_round ws 2 7 8 13;
    ws ← quarter_round ws 3 4 9 14;
    Ok ws) as [-> H1]; [exact H0|lia..|].
  destruct (quarter_round_run (B:=list Z) (apply_qr st (0, 4, 8, 12)%nat) 1 5 9 13)
    with (k:=fun ws : list Z =>
    ws ← quarter_round ws 2 6 10 14;
    ws ← quarter_round ws 3 7 11 15;
    ws ← quarter_round ws 0 5 10 15;
    ws ← quarter_round ws 1 6 11 12;
    ws ← quarter_round ws 2 7 8 13;
    ws ← quarter_round ws 3 4 9 14;
    Ok ws) as [-> H2]; [exact H1|lia..|].
  match goal with |- context [quarter_round ?s 2 6 10 14] =>
    destruct (quarter_round_run (B:=list Z) s 2 6 10 14) with (k:=fun ws : list Z =>
    ws ← quarter_round ws 3 7 11 15;
    ws ← quarter_round ws 0 5 10 15;
    ws ← quarter_round ws 1 6 11 12;
    ws ← quarter_round ws 2 7 8 13;
    ws ← quarter_round ws 3 4 9 14;
    Ok ws) as [-> H3]; [exact H2|lia..|] end.
  match goal with |- context [quarter_round ?s 3 7 11 15] =>
    destruct (quarter_round_run (B:=list Z) s 3 7 11 15) with (k:=fun ws : list Z =>
    ws ← quarter_round ws 0 5 10 15;
    ws ← quarter_round ws 1 6 11 12;
    ws ← quarter_round ws 2 7 8 13;
    ws ← quarter_round ws 3 4 9 14;
    Ok ws) as [-> H4]; [exact H3|lia..|] end.
  match goal with |- context [quarter_round ?s 0 5 10 15] =>
    destruct (quarter_round_run (B:=list Z) s 0 5 10 15) with (k:=fun ws : list Z =>
    ws ← quarter_round ws 1 6 11 12;
    ws ← quarter_round ws 2 7 8 13;
    ws ← quarter_round ws 3 4 9 14;
    Ok ws) as [-> H5]; [exact H4|lia..|] end.
  match goal with |- context [quarter_round ?s 1 6 11 12] =>
    destruct (quarter_round_run (B:=list Z) s 1 6 11 12) with (k:=fun ws : list Z =>
    ws ← quarter_round ws 2 7 8 13;
    ws ← quarter_round ws 3 4 9 14;
    Ok ws) as [-> H6]; [exact H5|lia..|] end.
  match goal with |- context [quarter_round ?s 2 7 8 13] =>
    destruct (quarter_round_run (B:=list Z) s 2 7 8 13) with (k:=fun ws : list Z =>
    ws ← quarter_round ws 3 4 9 14;
    Ok ws) as [-> H7]; [exact H6|lia..|] end.
  match goal with |- context [quarter_round ?s 3 4 9 14] =>
    destruct (quarter_round_run (B:=list Z) s 3 4 9 14) with (k:=fun ws : list Z =>
    Ok ws) as [-> H8]; [exact H7|lia..|] end.
  split; [reflexivity|exact H8].
Qed.

Lemma double_round_arx (st : list Z) :
  state16 st ->
  double_round st = Ok (foldl apply_qr st (column_rounds ++ diagonal_rounds))
  /\ state16 (foldl apply_qr st (column_rounds ++ diagonal_rounds)).
Proof. exact (double_round_nested st). Qed.

Lemma rounds_arx (n k : nat) (st : list Z) :
  state16 st ->
  for_each (seq k n) (fun _ ws => double_round ws) st
  = Ok (foldl apply_qr st
          (concat (replicate n (column_rounds ++ diagonal_rounds))))
  /\ state16 (foldl apply_qr st
                (concat (replicate n (column_rounds ++ diagonal_rounds)))).
Proof.
  revert k st. induction n as [|n IH]; intros k st Hst.
  - simpl. auto.
  - destruct (double_round_arx st Hst) as [Hd Hs].
    cbn [seq for_each replicate concat]. rewrite Hd.
    cbn [mbind res_bind].
    rewrite (foldl_app _ (column_rounds ++ diagonal_rounds)).
    apply IH. exact Hs.
Qed.

Lemma add_states_feed_forward (w s : list Z) :
  length w = 16%nat -> length s = 16%nat ->
  add_states w s = Ok (feed_forward w s).
Proof.
  intros Hw Hs. unfold add_states, feed_forward.
  rewrite (comprehension_map _ (fun i => add32 (w !!! i) (s !!! i))).
  - f_equal. apply list_eq. intros i.
    rewrite list_lookup_fmap, lookup_zip_with.
    destruct (decide (i < 16)%nat) as [Hi|Hi].
    + unfold range. rewrite lookup_seq_lt by exact Hi. simpl.
      rewrite (list_lookup_lookup_total_lt w i) by lia.
      rewrite (list_lookup_lookup_total_lt s i) by lia. reflexivity.
    + unfold range. rewrite lookup_seq_ge by lia.
      rewrite (lookup_ge_None_2 w i) by lia. reflexivity.
  - intros i Hi. unfold range in Hi. apply elem_of_seq in Hi.
    rewrite (getitem_total w i), (getitem_total s i) by lia. simpl.
    now rewrite mask32_mod.
Qed.

Lemma feed_forward_state16 (w s : list Z) :
  length w = 16%nat -> length s = 16%nat -> state16 (feed_forward w s).
Proof.
  intros Hw Hs. unfold feed_forward. split.
  - rewrite length_zip_with. lia.
  - apply Forall_lookup_2. intros i x Hx.
    apply lookup_zip_with_Some in Hx as (a & b & -> & _ & _).
    apply add32_word.
Qed.

Lemma initial_state_Ok (key nonce : list byte) (counter : Z) :
  length key = 32%nat -> length nonce = 12%nat ->
  initial_state key counter nonce
  = Ok (constants ++ le_words key ++ [counter] ++ le_words nonce).
Proof.
  intros Hk Hn. unfold initial_state, struct_unpack_I.
  rewrite !decide_True by lia. reflexivity.
Qed.

Lemma initial_state_state16 (key nonce : list byte) (counter : Z) :
  length key = 32%nat -> length nonce = 12%nat -> word32 counter ->
  state16 (constants ++ le_words key ++ [counter] ++ le_words nonce).
Proof.
  intros Hk Hn Hc. split.
  - rewrite !length_app, (le_words_length 8), (le_words_length 3) by lia.
    reflexivity.
  - apply Forall_app. split.
    { unfold constants.
      repeat (apply Forall_cons_2; [unfold word32; lia|]).
      apply Forall_nil_2. }
    apply Forall_app. split; [apply le_words_words|].
    apply Forall_app. split; [|apply le_words_words].
    apply Forall_cons_2; [exact Hc|apply Forall_nil_2].
Qed.

Lemma qr_schedule_unfold :
  qr_schedule = concat (replicate 10 (column_rounds ++ diagonal_rounds)).
Proof. reflexivity. Qed.

(** The block function after the state is built, for any loop range. *)
Lemma block_pipeline (xs : list nat) (S W : list Z) (out : list byte) :
  for_each xs (fun _ ws => double_round ws) S = Ok W ->
  length W = 16%nat -> length S = 16%nat ->
  struct_pack_I 16 (feed_forward W S) = Ok out ->
  (w ← for_each xs (fun _ ws => double_round ws) S;
   final_state ← add_states w S; struct_pack_I 16 final_state) = Ok out.
Proof.
  intros HW Hlw Hls Hout. rewrite (bind_Ok _ _ _ HW).
  rewrite (bind_Ok _ _ _ (add_states_feed_forward W S Hlw Hls)).
  exact Hout.
Qed.

(** The block of a 32-bit counter, step by step. *)
Lemma chacha20_block_arx (key nonce : list byte) (counter : Z) :
  length key = 32%nat -> length nonce = 12%nat -> word32 counter ->
  exists S out,
    initial_state key counter nonce = Ok S
    /\ chacha20_block key counter nonce = Ok out
    /\ map byte_to_Z out
       = serialize (feed_forward (foldl apply_qr S qr_schedule) S)
    /\ length out = 64%nat.
Proof.
  intros Hk Hn Hc.
  pose proof (initial_state_Ok key nonce counter Hk Hn) as HS.
  pose proof (initial_state_state16 key nonce counter Hk Hn Hc) as H16.
  revert HS H16.
  generalize (constants ++ le_words key ++ [counter] ++ le_words nonce).
  intros S HS H16. exists S.
  destruct (rounds_arx 10 0 S H16) as [Hr [Hwl Hww]].
  rewrite <- qr_schedule_unfold in Hr, Hwl, Hww.
  revert Hr Hwl Hww. generalize (foldl apply_qr S qr_schedule).
  intros W Hr Hwl Hww.
  destruct (feed_forward_state16 W S Hwl (proj1 H16)) as [Hfl Hfw].
  destruct (struct_pack_I_Ok 16 (feed_forward W S) Hfl Hfw)
    as (out & Hout & Hz & Hlen).
  exists out. split; [exact HS|]. split; [|split; [exact Hz|exact Hlen]].
  rewrite chacha20_block_unfold, (bind_Ok _ _ _ HS).
  exact (block_pipeline (range 10) S W out Hr Hwl (proj1 H16) Hout).
Qed.

(** The block function returns 64 bytes for every integer counter. *)
Lemma chacha20_block_total (key nonce : list byte) (counter : Z) :
  length key = 32%nat -> length nonce = 12%nat ->
  exists out, chacha20_block key counter nonce = Ok out
              /\ length out = 64%nat.
Proof.
  intros Hk Hn.
  destruct (chacha20_block_arx key nonce (counter mod 2 ^ 32) Hk Hn)
    as (S & out & _ & Hout & _ & Hlen).
  { unfold word32. apply Z.mod_pos_bound. lia. }
  exists out. split; [|exact Hlen].
  rewrite (chacha20_block_eqm key nonce counter (counter mod 2 ^ 32));
    [exact Hout|apply eqm32_wrap].
Qed.

(** ** The stream as an exclusive-or with a keystream *)

Lemma byte_of_Z_xor (p k : byte) :
  byte_of_Z (Z.lxor (byte_to_Z p) (byte_to_Z k)) = Ok (xor_byte p k).
Proof.
  unfold xor_byte.
  destruct (byte_of_Z_Ok (Z.lxor (byte_to_Z p) (byte_to_Z k)))
    as (b & -> & _); [|reflexivity].
  change 256 with (2 ^ 8). apply lxor_bound; [lia| |];
    change (2 ^ 8) with 256; apply byte_to_Z_range.
Qed.

Lemma byte_to_Z_xor (p k : byte) :
  byte_to_Z (xor_byte p k) = Z.lxor (byte_to_Z p) (byte_to_Z k).
Proof. apply byte_of_Z_inv, byte_of_Z_xor. Qed.

Lemma xor_byte_involutive (p k : byte) : xor_byte (xor_byte p k) k = p.
Proof.
  apply byte_to_Z_inj. rewrite !byte_to_Z_xor.
  now rewrite Z.lxor_assoc, Z.lxor_nilpotent, Z.lxor_0_r.
Qed.

Lemma xor_bytes_ints (p k : list byte) :
  map byte_to_Z (xor_bytes p k)
  = zip_with Z.lxor (map byte_to_Z p) (map byte_to_Z k).
Proof.
  unfold xor_bytes. revert k.
  induction p as [|x p IH]; intros [|y k]; simpl; try reflexivity.
  now rewrite byte_to_Z_xor, IH.
Qed.

Lemma xor_bytes_length (p k : list byte) :
  (length p <= length k)%nat -> length (xor_bytes p k) = length p.
Proof. intros H. unfold xor_bytes. rewrite length_zip_with. lia. Qed.

Lemma xor_bytes_involutive (p k : list byte) :
  (length p <= length k)%nat -> xor_bytes (xor_bytes p k) k = p.
Proof.
  unfold xor_bytes. revert k.
  induction p as [|x p IH]; intros [|y k] H; simpl in *;
    try reflexivity; try lia.
  rewrite xor_byte_involutive, IH by lia. reflexivity.
Qed.

Lemma comprehension_fmap {A B C : Type} (f : B -> res C) (g : A -> B)
    (xs : list A) :
  comprehension f (map g xs) = comprehension (fun x => f (g x)) xs.
Proof.
  induction xs as [|x xs IH]; simpl; [reflexivity|]. now rewrite IH.
Qed.

(** The list comprehension of the loop body, then [bytes(...)]. *)
Lemma xor_comprehension (P ks : list byte) (start bs : nat) :
  (bs <= length P - start)%nat -> (bs <= length ks)%nat ->
  (ints ← comprehension
            (fun i =>
               p ← getitem P (start + i);
               k ← getitem ks i;
               Ok (Z.lxor (byte_to_Z p) (byte_to_Z k)))
            (range bs);
   bytes_of_ints ints)
  = Ok (xor_bytes (take bs (drop start P)) ks).
Proof.
  intros HP Hks.
  rewrite (comprehension_map _
             (fun i => Z.lxor (byte_to_Z (P !!! (start + i)%nat))
                              (byte_to_Z (ks !!! i)))).
  2:{ intros i Hi. unfold range in Hi. apply elem_of_seq in Hi.
      rewrite (getitem_total P), (getitem_total ks) by lia.
      reflexivity. }
  cbn [mbind res_bind]. unfold bytes_of_ints.
  rewrite comprehension_fmap.
  rewrite (comprehension_map _
             (fun i => xor_byte (P !!! (start + i)%nat) (ks !!! i))).
  2:{ intros i _. apply byte_of_Z_xor. }
  f_equal. apply list_eq. intros i. unfold xor_bytes, range.
  rewrite list_lookup_fmap, lookup_zip_with.
  destruct (decide (i < bs)%nat) as [Hi|Hi].
  - rewrite lookup_seq_lt by exact Hi. simpl.
    rewrite lookup_take_lt, lookup_drop by exact Hi.
    rewrite (list_lookup_lookup_total_lt P), (list_lookup_lookup_total_lt ks)
      by lia.
    reflexivity.
  - rewrite lookup_seq_ge, lookup_take_ge by lia. reflexivity.
Qed.

Section stream.
Variables key nonce : list byte.
Variable initial_counter : Z.
Hypothesis key_length : length key = 32%nat.
Hypothesis nonce_length : length nonce = 12%nat.

Lemma block_at_Ok (i : nat) :
  chacha20_block key (Z.of_nat i + initial_counter) nonce
  = Ok (block_at key nonce initial_counter i)
  /\ length (block_at key nonce initial_counter i) = 64%nat.
Proof.
  unfold block_at.
  destruct (chacha20_block_total key nonce (Z.of_nat i + initial_counter)
              key_length nonce_length) as (ks & -> & Hl).
  split; [reflexivity|exact Hl].
Qed.

Lemma keystream_length (k n : nat) :
  length (keystream key nonce initial_counter k n) = (64 * n)%nat.
Proof.
  revert k. induction n as [|n IH]; intros k; [reflexivity|].
  cbn [keystream]. rewrite length_app, IH, (proj2 (block_at_Ok k)). lia.
Qed.

Lemma keystream_lookup (k n j : nat) :
  (j < 64 * n)%nat ->
  keystream key nonce initial_counter k n !! j
  = block_at key nonce initial_counter (k + j / 64) !! (j mod 64)%nat.
Proof.
  revert k j. induction n as [|n IH]; intros k j Hj; [lia|].
  cbn [keystream]. pose proof (proj2 (block_at_Ok k)) as Hl.
  destruct (decide (j < 64)%nat) as [Hlt|Hge].
  - rewrite lookup_app_l by lia.
    rewrite Nat.div_small, Nat.mod_small by exact Hlt.
    now rewrite Nat.add_0_r.
  - rewrite lookup_app_r by lia. rewrite Hl, IH by lia.
    assert (Hd : (j / 64 = S ((j - 64) / 64))%nat).
    { replace j with ((j - 64) + 1 * 64)%nat at 1 by lia.
      rewrite Nat.div_add by lia. lia. }
    assert (Hm : (j mod 64 = (j - 64) mod 64)%nat).
    { replace j with ((j - 64) + 1 * 64)%nat at 1 by lia.
      now rewrite Nat.Div0.mod_add. }
    rewrite Hd, Hm. f_equal. f_equal. lia.
Qed.

(** One iteration of the block loop. *)
Lemma encrypt_block_Ok (P : list byte) (k : nat) (ct : list byte)
    (calls : list Z) :
  encrypt_block key nonce P initial_counter k (ct, calls)
  = Ok (ct ++ xor_bytes (take 64 (drop (64 * k) P))
                        (block_at key nonce initial_counter k),
        calls ++ [Z.of_nat k + initial_counter]).
Proof.
  destruct (block_at_Ok k) as [Hb Hl]. unfold encrypt_block.
  rewrite (bind_Ok _ _ _ Hb). cbv zeta.
  assert (Hbs : (Nat.min (k * 64 + 64) (length P) - k * 64
                 <= length P - k * 64)%nat) by lia.
  assert (Hbk : (Nat.min (k * 64 + 64) (length P) - k * 64
                 <= length (block_at key nonce initial_counter k))%nat)
    by lia.
  pose proof (xor_comprehension P _ (k * 64) _ Hbs Hbk) as Hx.
  revert Hx. generalize (block_at key nonce initial_counter k).
  intros ks Hx.
  match goal with
  | |- (?m ≫= ?f) = _ =>
      change (m ≫= f)
        with (m ≫= (fun ints => bytes_of_ints ints ≫= (fun block =>
                Ok (ct ++ block,
                    calls ++ [Z.of_nat k + initial_counter]))))
  end.
  revert Hx.
  generalize (comprehension
                (fun i => p ← getitem P (k * 64 + i);
                          k0 ← getitem ks i;
                          Ok (Z.lxor (byte_to_Z p) (byte_to_Z k0)))
                (range (Nat.min (k * 64 + 64) (length P) - k * 64))).
  intros [ints|e] Hx; cbn [mbind res_bind] in Hx |- *; [|discriminate].
  rewrite Hx. cbn [mbind res_bind]. f_equal. f_equal. f_equal.
  rewrite (Nat.mul_comm 64 k).
  destruct (decide (64 <= length P - k * 64)%nat) as [Hfull|Hpart].
  - do 2 f_equal. lia.
  - rewrite !take_ge; [reflexivity| |]; rewrite length_drop; lia.
Qed.

(** The block loop from block [k] on. *)
Lemma encrypt_loop (P : list byte) (n k : nat) (ct : list byte)
    (calls : list Z) :
  for_each (seq k n) (encrypt_block key nonce P initial_counter)
           (ct, calls)
  = Ok (ct ++ xor_bytes (drop (64 * k) P)
                        (keystream key nonce initial_counter k n),
        calls ++ map (fun i => Z.of_nat i + initial_counter) (seq k n)).
Proof.
  revert k ct calls. induction n as [|n IH]; intros k ct calls.
  - cbn [seq for_each keystream map]. unfold xor_bytes.
    rewrite zip_with_nil_r, !app_nil_r. reflexivity.
  - cbn [seq for_each]. rewrite (bind_Ok _ _ _ (encrypt_block_Ok P k ct calls)).
    rewrite IH. cbn [keystream map]. f_equal. f_equal.
    + unfold xor_bytes. rewrite zip_with_app_r.
      rewrite (proj2 (block_at_Ok k)), drop_drop, <- app_assoc.
      replace (64 * S k)%nat with (64 * k + 64)%nat by lia.
      reflexivity.
    + now rewrite <- app_assoc.
Qed.

(** The whole function: the input xor the keystream of its blocks. *)
Lemma chacha20_encrypt_run_spec (P : list byte) :
  chacha20_encrypt_run key nonce P initial_counter
  = Ok (xor_bytes P (keystream key nonce initial_counter 0
                               (block_count (length P))),
        map (fun i => Z.of_nat i + initial_counter)
            (seq 0 (block_count (length P)))).
Proof.
  unfold chacha20_encrypt_run.
  destruct (decide (length P = 0%nat)) as [H0|Hne].
  - destruct P; [reflexivity|discriminate].
  - cbv zeta. unfold range. fold (block_count (length P)).
    rewrite encrypt_loop. reflexivity.
Qed.

Lemma chacha20_encrypt_spec (P : list byte) :
  chacha20_encrypt key nonce P initial_counter
  = Ok (xor_bytes P (keystream key nonce initial_counter 0
                               (block_count (length P)))).
Proof.
  unfold chacha20_encrypt. now rewrite chacha20_encrypt_run_spec.
Qed.
End stream.

Lemma block_count_covers (len : nat) : (len <= 64 * block_count len)%nat.
Proof.
  unfold block_count.
  pose proof (Nat.div_mod (len + 63) 64 ltac:(lia)) as Hd.
  pose proof (Nat.mod_upper_bound (len + 63) 64 ltac:(lia)). lia.
Qed.

Section stream_views.
Variables key nonce : list byte.
Variable initial_counter : Z.
Hypothesis key_length : length key = 32%nat.
Hypothesis nonce_length : length nonce = 12%nat.

Local Abbreviation output := (stream_output key nonce initial_counter).

(** Byte [j] of the output depends on byte [j] of the input and on byte
    [j mod 64] of keystream block [j / 64], and on nothing else. *)
Lemma output_lookup (P : list byte) (j : nat) :
  output P !! j
  = (p ← P !! j;
     k ← block_at key nonce initial_counter (j / 64) !! (j mod 64)%nat;
     Some (xor_byte p k)).
Proof.
  unfold stream_output, xor_bytes. rewrite lookup_zip_with.
  destruct (P !! j) as [p|] eqn:Hp; [|reflexivity].
  apply lookup_lt_Some in Hp. pose proof (block_count_covers (length P)).
  rewrite (keystream_lookup key nonce initial_counter key_length
             nonce_length) by lia.
  reflexivity.
Qed.

Lemma output_length (P : list byte) : length (output P) = length P.
Proof.
  unfold stream_output. apply xor_bytes_length.
  rewrite (keystream_length key nonce initial_counter key_length
             nonce_length).
  apply block_count_covers.
Qed.

(** The output bytes of block [i] are the input bytes of block [i] xor
    the leading bytes of keystream block [i]. *)
Lemma output_block (P : list byte) (i : nat) :
  take 64 (drop (64 * i) (output P))
  = xor_bytes (take 64 (drop (64 * i) P))
              (block_at key nonce initial_counter i).
Proof.
  apply list_eq. intros j. unfold xor_bytes at 1.
  rewrite lookup_zip_with.
  destruct (decide (j < 64)%nat) as [Hj|Hj].
  - rewrite !lookup_take_lt, !lookup_drop, output_lookup by exact Hj.
    replace ((64 * i + j) / 64)%nat with i.
    2:{ rewrite (Nat.mul_comm 64 i), Nat.div_add_l by lia.
        rewrite Nat.div_small by exact Hj. lia. }
    replace ((64 * i + j) mod 64)%nat with j.
    2:{ rewrite (Nat.mul_comm 64 i), Nat.add_comm, Nat.Div0.mod_add.
        now rewrite Nat.mod_small. }
    reflexivity.
  - rewrite !lookup_take_ge by lia. reflexivity.
Qed.

Lemma output_prefix (P R : list byte) :
  take (length P) (output (P ++ R)) = output P.
Proof.
  apply list_eq. intros j.
  destruct (decide (j < length P)%nat) as [Hj|Hj].
  - rewrite lookup_take_lt, !output_lookup by exact Hj.
    now rewrite lookup_app_l by exact Hj.
  - rewrite lookup_take_ge by lia. symmetry.
    apply lookup_ge_None. rewrite output_length. lia.
Qed.

Lemma output_involutive (P : list byte) : output (output P) = P.
Proof.
  unfold stream_output at 1. rewrite output_length. unfold stream_output.
  apply xor_bytes_involutive.
  rewrite (keystream_length key nonce initial_counter key_length
             nonce_length).
  apply block_count_covers.
Qed.

Lemma chacha20_encrypt_output (P : list byte) :
  chacha20_encrypt key nonce P initial_counter = Ok (output P).
Proof. now apply chacha20_encrypt_spec. Qed.

Lemma chacha20_encrypt_run_output (P : list byte) :
  chacha20_encrypt_run key nonce P initial_counter
  = Ok (output P,
        map (fun i => Z.of_nat i + initial_counter)
            (seq 0 (block_count (length P)))).
Proof. now apply chacha20_encrypt_run_spec. Qed.
End stream_views.

(** * The claims *)

(** The model reproduces the first bytes of the ciphertext of RFC 8439,
    section 2.4.2 (key 00..1f, nonce 000000000000004a00000000, initial
    counter 1). *)
Example rfc_encrypt_vector :
  (fun c => take 16 (hex_of_bytes c))
    <$> chacha20_encrypt rfc_key test_nonce sunscreen 1
  = Ok [0x6e; 0x2e; 0x35; 0x9a; 0x25; 0x68; 0xf9; 0x80;
        0x41; 0xba; 0x07; 0x28; 0xdd; 0x0d; 0x69; 0x81].
Proof. vm_compute. reflexivity. Qed.

(** ** C1 *)

(** C1, as stated, fails: for the key 00..1f, counter 1 and the nonce
    000000000000004a00000000 the block function does not return the
    keystream 10f1e7e4...a2503c4e. *)
Lemma rfc_block_vector_wrong_nonce :
  hex_of_bytes <$> chacha20_block rfc_key 1 test_nonce <> Ok rfc_keystream.
Proof. vm_compute. discriminate. Qed.

(** C1, amended: for the key 00..1f and counter 1, the block function
    returns the 64-byte keystream 10f1e7e4...a2503c4e for the nonce
    000000090000004a00000000 of RFC 8439 section 2.3.2; for the nonce
    000000000000004a00000000 it returns 224f51f3...f07d41b7. *)
Theorem rfc_block_vector :
  hex_of_bytes <$> chacha20_block rfc_key 1 rfc_block_nonce
  = Ok rfc_keystream
  /\ hex_of_bytes <$> chacha20_block rfc_key 1 test_nonce
     = Ok test_nonce_keystream.
Proof. split; vm_compute; reflexivity. Qed.

(** ** C2 *)

(** The log of a run holds the schedule, whatever the inputs. *)
Lemma chacha20_block_run_log (key nonce : list byte) (counter : Z) :
  chacha20_block_run key counter nonce
  = (keystream ← chacha20_block key counter nonce;
     Ok (keystream, qr_schedule)).
Proof.
  rewrite chacha20_block_run_unfold, chacha20_block_unfold,
    qr_schedule_unfold.
  reflexivity.
Qed.

(** C2, as stated, fails: a block makes 80 calls of the quarter round, not
    160. *)
Lemma block_quarter_round_calls_not_160 :
  (fun r => length (snd r)) <$> chacha20_block_run rfc_key 1 rfc_block_nonce
  <> Ok 160%nat.
Proof. vm_compute. discriminate. Qed.

(** C2, amended: for a 32-byte key, a 12-byte nonce and a 32-bit counter,
    the block function builds the initial state [S], runs ten double
    rounds on a copy, each the four column quarter rounds followed by the
    four diagonal ones, 80 quarter-round calls in total, adds [S] back
    word by word modulo 2^32 and returns the 16 words as 64 little-endian
    bytes, word 0 first. *)
Theorem chacha20_block_rounds (key nonce : list byte) (counter : Z) :
  length key = 32%nat -> length nonce = 12%nat -> word32 counter ->
  exists S out,
    initial_state key counter nonce = Ok S
    /\ chacha20_block_run key counter nonce = Ok (out, qr_schedule)
    /\ chacha20_block key counter nonce = Ok out
    /\ map byte_to_Z out
       = serialize (feed_forward (foldl apply_qr S qr_schedule) S)
    /\ qr_schedule
       = concat (replicate 10
           ([(0, 4, 8, 12); (1, 5, 9, 13); (2, 6, 10, 14); (3, 7, 11, 15)]
            ++ [(0, 5, 10, 15); (1, 6, 11, 12); (2, 7, 8, 13);
                (3, 4, 9, 14)]))%nat
    /\ length qr_schedule = 80%nat
    /\ length out = 64%nat.
Proof.
  intros Hk Hn Hc.
  destruct (chacha20_block_arx key nonce counter Hk Hn Hc)
    as (S & out & HS & Hout & Hz & Hl).
  exists S, out.
  split; [exact HS|]. split.
  { rewrite chacha20_block_run_log, (bind_Ok _ _ _ Hout). reflexivity. }
  split; [exact Hout|]. split; [exact Hz|].
  split; [reflexivity|]. split; [reflexivity|exact Hl].
Qed.

Lemma chacha20_block_rounds_witness :
  exists S out,
    initial_state rfc_key 1 rfc_block_nonce = Ok S
    /\ chacha20_block_run rfc_key 1 rfc_block_nonce = Ok (out, qr_schedule)
    /\ chacha20_block rfc_key 1 rfc_block_nonce = Ok out
    /\ map byte_to_Z out
       = serialize (feed_forward (foldl apply_qr S qr_schedule) S)
    /\ qr_schedule
       = concat (replicate 10
           ([(0, 4, 8, 12); (1, 5, 9, 13); (2, 6, 10, 14); (3, 7, 11, 15)]
            ++ [(0, 5, 10, 15); (1, 6, 11, 12); (2, 7, 8, 13);
                (3, 4, 9, 14)]))%nat
    /\ length qr_schedule = 80%nat
    /\ length out = 64%nat.
Proof.
  apply (chacha20_block_rounds rfc_key rfc_block_nonce 1);
    [reflexivity|reflexivity|unfold word32; lia].
Defined.

(** ** C3 *)

(** C3: on a state of sixteen 32-bit words and indices below 16, the
    quarter round is the four-line add, xor, rotate sequence with the
    rotation distances 16, 12, 8, 7 and additions modulo 2^32, carried out
    in place; on the RFC 8439 section 2.2.1 state with indices (2,7,8,13)
    it produces the expected state of the RFC. *)
Theorem quarter_round_is_arx (st : list Z) (a b c d : nat) :
  length st = 16%nat -> words32 st ->
  (a < 16)%nat -> (b < 16)%nat -> (c < 16)%nat -> (d < 16)%nat ->
  quarter_round st a b c d = Ok (arx_quarter_round st a b c d)
  /\ length (arx_quarter_round st a b c d) = 16%nat
  /\ words32 (arx_quarter_round st a b c d)
  /\ quarter_round rfc_qr_state 2 7 8 13 = Ok rfc_qr_expected.
Proof.
  intros Hl Hw Ha Hb Hc Hd. split; [|split; [|split]].
  - apply quarter_round_arx; auto; lia.
  - now rewrite arx_quarter_round_length.
  - apply arx_quarter_round_words; auto; lia.
  - vm_compute. reflexivity.
Qed.

Lemma quarter_round_is_arx_witness :
  quarter_round rfc_qr_state 2 7 8 13
  = Ok (arx_quarter_round rfc_qr_state 2 7 8 13)
  /\ length (arx_quarter_round rfc_qr_state 2 7 8 13) = 16%nat
  /\ words32 (arx_quarter_round rfc_qr_state 2 7 8 13)
  /\ quarter_round rfc_qr_state 2 7 8 13 = Ok rfc_qr_expected.
Proof.
  apply (quarter_round_is_arx rfc_qr_state 2 7 8 13);
    [reflexivity| |lia|lia|lia|lia].
  unfold rfc_qr_state.
  repeat (apply Forall_cons_2; [unfold word32; lia|]). apply Forall_nil_2.
Defined.

(** ** C4 *)

(** C4: for a 32-byte key, a 32-bit counter and a 12-byte nonce,
    [initial_state] returns sixteen 32-bit words: the four constants
    0x61707865, 0x3320646e, 0x79622d32, 0x6b206574, whatever the inputs,
    then the eight little-endian words of the key, the counter, and the
    three little-endian words of the nonce; the result is a function of
    the inputs alone. *)
Theorem initial_state_layout (key nonce : list byte) (counter : Z) :
  length key = 32%nat -> length nonce = 12%nat -> word32 counter ->
  exists S,
    initial_state key counter nonce = Ok S
    /\ length S = 16%nat
    /\ words32 S
    /\ take 4 S = [0x61707865; 0x3320646e; 0x79622d32; 0x6b206574]
    /\ (forall i, (i < 8)%nat -> S !! (4 + i)%nat = Some (le32_at key i))
    /\ S !! 12%nat = Some counter
    /\ (forall j, (j < 3)%nat -> S !! (13 + j)%nat = Some (le32_at nonce j))
    /\ (forall S', initial_state key counter nonce = Ok S' -> S' = S).
Proof.
  intros Hk Hn Hc.
  pose proof (initial_state_Ok key nonce counter Hk Hn) as HS.
  destruct (initial_state_state16 key nonce counter Hk Hn Hc) as [Hl Hw].
  pose proof (le_words_length 8 key ltac:(lia)) as Hkl.
  exists (constants ++ le_words key ++ [counter] ++ le_words nonce).
  split; [exact HS|]. split; [exact Hl|]. split; [exact Hw|].
  split; [reflexivity|]. split; [|split; [|split]].
  - intros i Hi. rewrite lookup_app_r by (simpl; lia).
    replace (4 + i - length constants)%nat with i by (simpl; lia).
    rewrite lookup_app_l by lia. now apply (le_words_lookup 8).
  - rewrite lookup_app_r by (simpl; lia).
    rewrite lookup_app_r by (simpl; lia).
    rewrite Hkl. reflexivity.
  - intros j Hj. rewrite lookup_app_r by (simpl; lia).
    rewrite lookup_app_r by (simpl; lia).
    rewrite Hkl.
    replace (13 + j - length constants - 8)%nat with (S j) by (simpl; lia).
    simpl. now apply (le_words_lookup 3).
  - intros S' HS'. rewrite HS in HS'. now injection HS'.
Qed.

Lemma initial_state_layout_witness :
  exists S,
    initial_state rfc_key 1 test_nonce = Ok S
    /\ length S = 16%nat
    /\ words32 S
    /\ take 4 S = [0x61707865; 0x3320646e; 0x79622d32; 0x6b206574]
    /\ (forall i, (i < 8)%nat -> S !! (4 + i)%nat = Some (le32_at rfc_key i))
    /\ S !! 12%nat = Some 1
    /\ (forall j, (j < 3)%nat ->
                  S !! (13 + j)%nat = Some (le32_at test_nonce j))
    /\ (forall S', initial_state rfc_key 1 test_nonce = Ok S' -> S' = S).
Proof.
  apply (initial_state_layout rfc_key test_nonce 1);
    [reflexivity|reflexivity|unfold word32; lia].
Defined.

(** ** C5 *)

(** C5: for a 32-byte key, a 12-byte nonce and any initial counter,
    encrypting the output of an encryption under the same key, nonce and
    initial counter gives the input back. *)
Theorem chacha20_encrypt_involution (key nonce P : list byte)
    (initial_counter : Z) :
  length key = 32%nat -> length nonce = 12%nat ->
  exists C,
    chacha20_encrypt key nonce P initial_counter = Ok C
    /\ chacha20_encrypt key nonce C initial_counter = Ok P.
Proof.
  intros Hk Hn. exists (stream_output key nonce initial_counter P). split.
  - now apply chacha20_encrypt_output.
  - rewrite chacha20_encrypt_output by assumption.
    now rewrite output_involutive.
Qed.

Lemma chacha20_encrypt_involution_witness :
  exists C,
    chacha20_encrypt rfc_key test_nonce sunscreen 1 = Ok C
    /\ chacha20_encrypt rfc_key test_nonce C 1 = Ok sunscreen.
Proof.
  apply (chacha20_encrypt_involution rfc_key test_nonce sunscreen 1);
    reflexivity.
Defined.

(** ** C6 *)

(** C6: for a 32-byte key, a 12-byte nonce, any initial counter and any
    block index [i] below the block count, the loop hands the counter
    [initial_counter + i] to the block function, the block returned is
    the block of that counter reduced modulo 2^32, and the output bytes
    of block [i] are the input bytes of block [i] xor that block. *)
Theorem chacha20_encrypt_block_counter (key nonce P : list byte)
    (initial_counter : Z) (i : nat) :
  length key = 32%nat -> length nonce = 12%nat ->
  (i < block_count (length P))%nat ->
  exists C calls ks,
    chacha20_encrypt_run key nonce P initial_counter = Ok (C, calls)
    /\ calls !! i = Some (Z.of_nat i + initial_counter)
    /\ chacha20_block key (Z.of_nat i + initial_counter) nonce = Ok ks
    /\ chacha20_block key ((initial_counter + Z.of_nat i) mod 2 ^ 32) nonce
       = Ok ks
    /\ length ks = 64%nat
    /\ map byte_to_Z (take 64 (drop (64 * i) C))
       = zip_with Z.lxor (map byte_to_Z (take 64 (drop (64 * i) P)))
                         (map byte_to_Z ks).
Proof.
  intros Hk Hn Hi.
  destruct (block_at_Ok key nonce initial_counter Hk Hn i) as [Hb Hl].
  exists (stream_output key nonce initial_counter P),
    (map (fun i => Z.of_nat i + initial_counter)
         (seq 0 (block_count (length P)))),
    (block_at key nonce initial_counter i).
  split; [now apply chacha20_encrypt_run_output|].
  split; [now rewrite list_lookup_fmap, lookup_seq_lt by exact Hi|].
  split; [exact Hb|]. split; [|split; [exact Hl|]].
  - rewrite <- Hb. symmetry. apply chacha20_block_eqm.
    replace (initial_counter + Z.of_nat i)
      with (Z.of_nat i + initial_counter) by lia.
    apply eqm32_wrap.
  - rewrite (output_block key nonce initial_counter Hk Hn).
    apply xor_bytes_ints.
Qed.

Lemma chacha20_encrypt_block_counter_witness :
  exists C calls ks,
    chacha20_encrypt_run rfc_key test_nonce sunscreen 0xFFFFFFFF
    = Ok (C, calls)
    /\ calls !! 1%nat = Some (Z.of_nat 1 + 0xFFFFFFFF)
    /\ chacha20_block rfc_key (Z.of_nat 1 + 0xFFFFFFFF) test_nonce = Ok ks
    /\ chacha20_block rfc_key ((0xFFFFFFFF + Z.of_nat 1) mod 2 ^ 32)
                      test_nonce
       = Ok ks
    /\ length ks = 64%nat
    /\ map byte_to_Z (take 64 (drop (64 * 1) C))
       = zip_with Z.lxor
           (map byte_to_Z (take 64 (drop (64 * 1) sunscreen)))
           (map byte_to_Z ks).
Proof.
  apply (chacha20_encrypt_block_counter rfc_key test_nonce sunscreen
           0xFFFFFFFF 1);
    [reflexivity|reflexivity|vm_compute; lia].
Defined.

(** ** C7 *)

(** C7: for a 32-byte key, a 12-byte nonce and any initial counter, the
    output is as long as the input and the block function is called once
    per block; an empty input gives the empty output with no call of the
    block function; a final block of [N < 64] bytes is the xor of the last
    [N] input bytes with the first [N] bytes of its keystream block. *)
Theorem chacha20_encrypt_length (key nonce P : list byte)
    (initial_counter : Z) :
  length key = 32%nat -> length nonce = 12%nat ->
  exists C calls,
    chacha20_encrypt_run key nonce P initial_counter = Ok (C, calls)
    /\ chacha20_encrypt key nonce P initial_counter = Ok C
    /\ length C = length P
    /\ length calls = block_count (length P)
    /\ (length P = 0%nat -> C = [] /\ calls = [])
    /\ (forall i N ks,
          (0 < N < 64)%nat -> length P = (64 * i + N)%nat ->
          chacha20_block key (Z.of_nat i + initial_counter) nonce = Ok ks ->
          map byte_to_Z (drop (64 * i) C)
          = zip_with Z.lxor (map byte_to_Z (drop (64 * i) P))
                            (map byte_to_Z (take N ks))).
Proof.
  intros Hk Hn.
  pose proof (output_length key nonce initial_counter Hk Hn P) as Hlen.
  exists (stream_output key nonce initial_counter P),
    (map (fun i => Z.of_nat i + initial_counter)
         (seq 0 (block_count (length P)))).
  split; [now apply chacha20_encrypt_run_output|].
  split; [now apply chacha20_encrypt_output|].
  split; [exact Hlen|].
  split; [now rewrite length_map, length_seq|].
  split.
  - intros H0. destruct P; [|discriminate]. split; reflexivity.
  - intros i N ks HN HP Hks.
    destruct (block_at_Ok key nonce initial_counter Hk Hn i) as [Hb Hl].
    rewrite Hb in Hks. injection Hks as <-.
    rewrite <- xor_bytes_ints. f_equal.
    rewrite <- (take_ge (drop (64 * i)
                           (stream_output key nonce initial_counter P)) 64)
      by (rewrite length_drop; lia).
    rewrite (output_block key nonce initial_counter Hk Hn).
    rewrite (take_ge (drop (64 * i) P)) by (rewrite length_drop; lia).
    unfold xor_bytes.
    replace N with (length (drop (64 * i) P)) by (rewrite length_drop; lia).
    symmetry. apply zip_with_take_r.
Qed.

Lemma chacha20_encrypt_length_witness :
  exists C calls,
    chacha20_encrypt_run rfc_key test_nonce sunscreen 1 = Ok (C, calls)
    /\ chacha20_encrypt rfc_key test_nonce sunscreen 1 = Ok C
    /\ length C = length sunscreen
    /\ length calls = block_count (length sunscreen)
    /\ (length sunscreen = 0%nat -> C = [] /\ calls = [])
    /\ (forall i N ks,
          (0 < N < 64)%nat -> length sunscreen = (64 * i + N)%nat ->
          chacha20_block rfc_key (Z.of_nat i + 1) test_nonce = Ok ks ->
          map byte_to_Z (drop (64 * i) C)
          = zip_with Z.lxor (map byte_to_Z (drop (64 * i) sunscreen))
                            (map byte_to_Z (take N ks))).
Proof.
  apply (chacha20_encrypt_length rfc_key test_nonce sunscreen 1);
    reflexivity.
Defined.

(** ** C8 *)

(** C8: when the key is not 32 bytes long or the nonce is not 12 bytes
    long, [initial_state] raises [struct.error], and so do the block
    function and the encryption of a non-empty input; no state, keystream
    or output is produced from a truncated or padded key or nonce. *)
Theorem bad_lengths_raise (key nonce P : list byte)
    (counter initial_counter : Z) :
  length key <> 32%nat \/ length nonce <> 12%nat ->
  initial_state key counter nonce = Err StructError
  /\ chacha20_block key counter nonce = Err StructError
  /\ (P <> [] ->
      chacha20_encrypt key nonce P initial_counter = Err StructError).
Proof.
  intros Hbad.
  assert (Hinit : forall c, initial_state key c nonce = Err StructError).
  { intros c. unfold initial_state, struct_unpack_I.
    destruct (decide (length key = (4 * 8)%nat)) as [Hk|Hk];
      [|reflexivity].
    destruct (decide (length nonce = (4 * 3)%nat)) as [Hn|Hn];
      [|reflexivity].
    exfalso. destruct Hbad as [Hb|Hb]; apply Hb; lia. }
  assert (Hblock : forall c, chacha20_block key c nonce = Err StructError).
  { intros c. rewrite chacha20_block_unfold.
    now rewrite (bind_Err _ _ _ (Hinit c)). }
  split; [apply Hinit|]. split; [apply Hblock|].
  intros HP. unfold chacha20_encrypt, chacha20_encrypt_run.
  destruct (decide (length P = 0%nat)) as [H0|H0].
  { destruct P; [contradiction|discriminate]. }
  cbv zeta. fold (block_count (length P)).
  pose proof (block_count_covers (length P)) as Hc.
  destruct (block_count (length P)) as [|n]; [lia|].
  assert (Hfirst : encrypt_block key nonce P initial_counter 0 ([], [])
                   = Err StructError).
  { unfold encrypt_block. now rewrite (bind_Err _ _ _ (Hblock _)). }
  unfold range. cbn [seq for_each].
  now rewrite (bind_Err _ _ _ Hfirst).
Qed.

Lemma bad_lengths_raise_witness :
  initial_state (tail rfc_key) 1 test_nonce = Err StructError
  /\ chacha20_block (tail rfc_key) 1 test_nonce = Err StructError
  /\ (sunscreen <> [] ->
      chacha20_encrypt (tail rfc_key) test_nonce sunscreen 1
      = Err StructError).
Proof.
  apply (bad_lengths_raise (tail rfc_key) test_nonce sunscreen 1 1).
  left. vm_compute. lia.
Defined.

(** ** C9 *)

(** C9: for a 32-byte key, a 12-byte nonce and any initial counter, the
    output for an input and the output for any extension of that input
    agree on the length of the shorter input. *)
Theorem chacha20_encrypt_prefix (key nonce P R : list byte)
    (initial_counter : Z) :
  length key = 32%nat -> length nonce = 12%nat ->
  exists C1 C2,
    chacha20_encrypt key nonce P initial_counter = Ok C1
    /\ chacha20_encrypt key nonce (P ++ R) initial_counter = Ok C2
    /\ length C1 = length P
    /\ take (length P) C2 = C1.
Proof.
  intros Hk Hn.
  exists (stream_output key nonce initial_counter P),
    (stream_output key nonce initial_counter (P ++ R)).
  split; [now apply chacha20_encrypt_output|].
  split; [now apply chacha20_encrypt_output|].
  split; [now apply output_length|now apply output_prefix].
Qed.

Lemma chacha20_encrypt_prefix_witness :
  exists C1 C2,
    chacha20_encrypt rfc_key test_nonce (take 63 sunscreen) 1 = Ok C1
    /\ chacha20_encrypt rfc_key test_nonce
                        (take 63 sunscreen ++ drop 63 sunscreen) 1
       = Ok C2
    /\ length C1 = length (take 63 sunscreen)
    /\ take (length (take 63 sunscreen)) C2 = C1.
Proof.
  apply (chacha20_encrypt_prefix rfc_key test_nonce (take 63 sunscreen)
           (drop 63 sunscreen) 1);
    reflexivity.
Defined.

(** ** C10 *)

(** C10: for the empty input, [chacha20_encrypt] returns the empty byte
    string without raising and without calling the block function, for
    every key and nonce of any length: also for a key and a nonce for
    which [initial_state] raises. *)
Theorem chacha20_encrypt_empty (key nonce : list byte)
    (initial_counter : Z) :
  chacha20_encrypt key nonce [] initial_counter = Ok []
  /\ chacha20_encrypt_run key nonce [] initial_counter = Ok ([], [])
  /\ initial_state [] initial_counter [] = Err StructError
  /\ chacha20_encrypt [] [] [] initial_counter = Ok [].
Proof. repeat split. Qed.

(** * Further properties of the code *)

(** ** rotate_left *)

Lemma word32_high_bits (w i : Z) : word32 w -> 32 <= i -> Z.testbit w i = false.
Proof.
  intros Hw Hi. rewrite <- (Z.mod_small w (2 ^ 32)) by exact Hw.
  apply Z.mod_pow2_bits_high. lia.
Qed.

Lemma mask32_testbit (x j : Z) :
  Z.testbit (Z.land x 0xFFFFFFFF) j
  = if decide (0 <= j < 32) then Z.testbit x j else false.
Proof.
  rewrite mask32_mod. destruct (decide (0 <= j < 32)) as [Hj|Hj].
  - apply Z.mod_pow2_bits_low. lia.
  - destruct (Z.lt_ge_cases j 0) as [Hn|Hp].
    + apply Z.testbit_neg_r. exact Hn.
    + apply Z.mod_pow2_bits_high. lia.
Qed.

Lemma shift_mask_mod (n : Z) : Z.land n 31 = n mod 32.
Proof. change 31 with (Z.ones 5). now rewrite Z.land_ones by lia. Qed.

Lemma rotate_left_testbit (value shift i : Z) :
  0 <= i < 32 ->
  Z.testbit (rotate_left value shift) i
  = Z.testbit value ((i - shift) mod 32).
Proof.
  intros Hi. unfold rotate_left. cbv zeta.
  rewrite shift_mask_mod.
  pose proof (Z.mod_pos_bound shift 32 ltac:(lia)) as Hs.
  assert (Hm : (i - shift) mod 32 = (i - shift mod 32) mod 32)
    by now rewrite Zminus_mod_idemp_r.
  rewrite Hm. generalize dependent (shift mod 32). intros s Hs _.
  rewrite mask32_testbit, decide_True by exact Hi.
  rewrite Z.lor_spec, Z.shiftl_spec, Z.shiftr_spec by lia.
  rewrite !mask32_testbit.
  destruct (Z.lt_ge_cases i s) as [Hlt|Hge].
  - rewrite decide_False by lia. rewrite decide_True by lia.
    rewrite orb_false_l. f_equal.
    replace (i - s) with (i + (32 - s) + (-1) * 32) by lia.
    rewrite Z.mod_add by lia. symmetry. apply Z.mod_small. lia.
  - rewrite decide_True by lia. rewrite (decide_False (P := 0 <= _ < 32))
      by lia.
    rewrite orb_false_r. f_equal. symmetry. apply Z.mod_small. lia.
Qed.

(** X1: for all integers [value] and [shift], negative ones and shifts
    beyond 31 included, [rotate_left] returns a 32-bit word whose bit [i]
    is bit [(i - shift) mod 32] of [value]: a circular left rotation of
    the low 32 bits. *)
Theorem rotate_left_circular (value shift i : Z) :
  0 <= i < 32 ->
  0 <= rotate_left value shift < 2 ^ 32
  /\ Z.testbit (rotate_left value shift) i
     = Z.testbit value ((i - shift) mod 32).
Proof.
  intros Hi. split; [apply rotate_left_word|now apply rotate_left_testbit].
Qed.

Lemma rotate_left_circular_witness :
  0 <= rotate_left (-2) 33 < 2 ^ 32
  /\ Z.testbit (rotate_left (-2) 33) 0 = Z.testbit (-2) ((0 - 33) mod 32).
Proof. apply (rotate_left_circular (-2) 33 0). lia. Defined.

Lemma rotate_left_ext (x y : Z) :
  word32 x -> word32 y ->
  (forall i, 0 <= i < 32 -> Z.testbit x i = Z.testbit y i) -> x = y.
Proof.
  intros Hx Hy H. apply Z.bits_inj'. intros i Hi.
  destruct (Z.lt_ge_cases i 32) as [Hlt|Hge].
  - apply H. lia.
  - now rewrite !word32_high_bits.
Qed.

Lemma rotate_left_add (value a b : Z) :
  rotate_left (rotate_left value a) b = rotate_left value (a + b).
Proof.
  apply rotate_left_ext; try apply rotate_left_word.
  intros i Hi.
  rewrite (rotate_left_testbit (rotate_left value a) b i Hi).
  rewrite (rotate_left_testbit value (a + b) i Hi).
  rewrite rotate_left_testbit by (apply Z.mod_pos_bound; lia).
  apply (f_equal (Z.testbit value)).
  rewrite Zminus_mod_idemp_l. apply (f_equal (fun z => z mod 32)). lia.
Qed.

Lemma rotate_left_turn (value shift : Z) :
  shift mod 32 = 0 -> rotate_left value shift = value mod 2 ^ 32.
Proof.
  intros Hs. apply rotate_left_ext.
  - apply rotate_left_word.
  - unfold word32. apply Z.mod_pos_bound. lia.
  - intros i Hi. rewrite rotate_left_testbit by exact Hi.
    rewrite Zminus_mod, Hs, Z.sub_0_r, Z.mod_mod by lia.
    rewrite (Z.mod_small i) by lia.
    symmetry. apply Z.mod_pow2_bits_low. lia.
Qed.

Lemma rotate_left_undo (w shift : Z) :
  word32 w -> rotate_left (rotate_left w shift) (32 - shift) = w.
Proof.
  intros Hw. rewrite rotate_left_add.
  replace (shift + (32 - shift)) with 32 by lia.
  rewrite (rotate_left_turn w 32) by reflexivity. now apply Z.mod_small.
Qed.

Lemma rotate_left_inj (x y shift : Z) :
  word32 x -> word32 y -> rotate_left x shift = rotate_left y shift -> x = y.
Proof.
  intros Hx Hy Heq.
  rewrite <- (rotate_left_undo x shift Hx), <- (rotate_left_undo y shift Hy).
  now rewrite Heq.
Qed.

(** X2: two rotations in a row are one rotation by the sum of the shifts,
    for all integers. *)
Theorem rotate_left_compose (value a b : Z) :
  rotate_left (rotate_left value a) b = rotate_left value (a + b).
Proof. apply rotate_left_add. Qed.

(** X3: a rotation by a multiple of 32 positions (0 and 32 among them)
    returns the low 32 bits of the value, so it leaves a 32-bit word
    unchanged. *)
Theorem rotate_left_full_turn (value shift : Z) :
  shift mod 32 = 0 ->
  rotate_left value shift = value mod 2 ^ 32
  /\ (word32 value -> rotate_left value shift = value).
Proof.
  intros Hs. pose proof (rotate_left_turn value shift Hs) as H.
  split; [exact H|]. intros Hw. rewrite H. now apply Z.mod_small.
Qed.

Lemma rotate_left_full_turn_witness :
  rotate_left 0x12345678 32 = 0x12345678 mod 2 ^ 32
  /\ (word32 0x12345678 -> rotate_left 0x12345678 32 = 0x12345678).
Proof. apply (rotate_left_full_turn 0x12345678 32). reflexivity. Defined.

(** X4: on 32-bit words a rotation loses nothing: rotating on by
    [32 - shift] gives the word back, so [rotate_left] with a fixed shift
    is one-to-one on 32-bit words. *)
Theorem rotate_left_inverse (x y shift : Z) :
  word32 x -> word32 y ->
  rotate_left (rotate_left x shift) (32 - shift) = x
  /\ (rotate_left x shift = rotate_left y shift -> x = y).
Proof.
  intros Hx Hy. split; [now apply rotate_left_undo|].
  now apply rotate_left_inj.
Qed.

Lemma rotate_left_inverse_witness :
  rotate_left (rotate_left 0x80000001 7) (32 - 7) = 0x80000001
  /\ (rotate_left 0x80000001 7 = rotate_left 0x80000001 7 ->
      0x80000001 = 0x80000001).
Proof.
  apply (rotate_left_inverse 0x80000001 0x80000001 7);
    unfold word32; lia.
Defined.

(** ** quarter_round on arbitrary lists of integers *)

Lemma bind_Ok_inv {A B : Type} (m : res A) (f : A -> res B) (b : B) :
  m ≫= f = Ok b -> exists a, m = Ok a /\ f a = Ok b.
Proof. destruct m as [a|e]; [|discriminate]. intros H. now exists a. Qed.

Lemma bind_Err_inv {A B : Type} (m : res A) (f : A -> res B) (e : error) :
  m ≫= f = Err e -> m = Err e \/ exists a, m = Ok a /\ f a = Err e.
Proof.
  destruct m as [a|e']; cbn [mbind res_bind]; intros H.
  - right. now exists a.
  - left. congruence.
Qed.

Lemma getitem_Ok_inv {A : Type} (l : list A) (i : nat) (x : A) :
  getitem l i = Ok x -> l !! i = Some x.
Proof. unfold getitem. destruct (l !! i); congruence. Qed.

Lemma getitem_Err_inv {A : Type} (l : list A) (i : nat) (e : error) :
  getitem l i = Err e -> e = IndexError.
Proof. unfold getitem. destruct (l !! i); congruence. Qed.

Lemma setitem_Ok_inv {A : Type} (l l' : list A) (i : nat) (v : A) :
  setitem l i v = Ok l' -> (i < length l)%nat /\ l' = <[i:=v]> l.
Proof.
  unfold setitem. destruct (decide (i < length l)%nat); [|discriminate].
  intros [= <-]. auto.
Qed.

Lemma setitem_Err_inv {A : Type} (l : list A) (i : nat) (v : A) (e : error) :
  setitem l i v = Err e -> e = IndexError.
Proof.
  unfold setitem. destruct (decide (i < length l)%nat); congruence.
Qed.

Lemma writes_insert (st : list Z) (w : nat) (v : Z) :
  (w < length st)%nat -> writes w st (<[w:=v]> st).
Proof.
  intros Hw. split; [apply length_insert|]. split; [exact Hw|].
  intros k Hk. now apply list_lookup_insert_ne.
Qed.

Lemma add_into_writes (st st' : list Z) (i j : nat) :
  add_into st i j = Ok st' ->
  writes i st st' /\ word_at st' i /\ (j < length st)%nat.
Proof.
  unfold add_into. intros H.
  apply bind_Ok_inv in H as (x & Hx & H).
  apply bind_Ok_inv in H as (y & Hy & H).
  apply setitem_Ok_inv in H as [Hi ->].
  apply getitem_Ok_inv, lookup_lt_Some in Hy.
  split; [now apply writes_insert|]. split; [|exact Hy].
  eexists. split; [now apply list_lookup_insert_eq|apply mask32_word].
Qed.

Lemma xor_into_writes (st st' : list Z) (i j : nat) :
  xor_into st i j = Ok st' -> writes i st st' /\ (j < length st)%nat.
Proof.
  unfold xor_into. intros H.
  apply bind_Ok_inv in H as (x & Hx & H).
  apply bind_Ok_inv in H as (y & Hy & H).
  apply setitem_Ok_inv in H as [Hi ->].
  apply getitem_Ok_inv, lookup_lt_Some in Hy.
  split; [now apply writes_insert|exact Hy].
Qed.

Lemma rotate_at_writes (st st' : list Z) (i : nat) (n : Z) :
  rotate_at st i n = Ok st' -> writes i st st' /\ word_at st' i.
Proof.
  unfold rotate_at. intros H.
  apply bind_Ok_inv in H as (x & Hx & H).
  apply setitem_Ok_inv in H as [Hi ->].
  split; [now apply writes_insert|].
  eexists. split; [now apply list_lookup_insert_eq|apply rotate_left_word].
Qed.

Lemma writes_trans (w : nat) (s1 s2 s3 : list Z) :
  writes w s1 s2 -> writes w s2 s3 -> writes w s1 s3.
Proof.
  intros (Hl1 & Hw1 & Hf1) (Hl2 & Hw2 & Hf2).
  split; [congruence|]. split; [exact Hw1|].
  intros k Hk. now rewrite Hf2, Hf1.
Qed.

Lemma writes_word_at (w k : nat) (st st' : list Z) :
  writes w st st' -> word_at st' w -> word_at st k \/ k = w ->
  word_at st' k.
Proof.
  intros (_ & _ & Hf) Hw [Hk| ->]; [|exact Hw].
  destruct (decide (k = w)) as [->|Hne]; [exact Hw|].
  unfold word_at. now rewrite Hf.
Qed.

(** The twelve statements of a successful [quarter_round], as four writes
    to each of two slots per half. *)
Lemma quarter_round_steps (st st' : list Z) (a b c d : nat) :
  quarter_round st a b c d = Ok st' ->
  exists s1 s2 s3 s4 s5 s6 s7,
    (writes a st s1 /\ word_at s1 a /\ (b < length st)%nat)
    /\ (writes d s1 s2 /\ word_at s2 d)
    /\ (writes c s2 s3 /\ word_at s3 c)
    /\ (writes b s3 s4 /\ word_at s4 b)
    /\ (writes a s4 s5 /\ word_at s5 a)
    /\ (writes d s5 s6 /\ word_at s6 d)
    /\ (writes c s6 s7 /\ word_at s7 c)
    /\ (writes b s7 st' /\ word_at st' b).
Proof.
  unfold quarter_round. intros H.
  apply bind_Ok_inv in H as (t1 & H1 & H).
  apply bind_Ok_inv in H as (t2 & H2 & H).
  apply bind_Ok_inv in H as (t3 & H3 & H).
  apply bind_Ok_inv in H as (t4 & H4 & H).
  apply bind_Ok_inv in H as (t5 & H5 & H).
  apply bind_Ok_inv in H as (t6 & H6 & H).
  apply bind_Ok_inv in H as (t7 & H7 & H).
  apply bind_Ok_inv in H as (t8 & H8 & H).
  apply bind_Ok_inv in H as (t9 & H9 & H).
  apply bind_Ok_inv in H as (t10 & H10 & H).
  apply bind_Ok_inv in H as (t11 & H11 & H).
  apply bind_Ok_inv in H as (t12 & H12 & H).
  injection H as <-.
  apply add_into_writes in H1 as (W1 & A1 & B1).
  apply xor_into_writes in H2 as (W2 & _).
  apply rotate_at_writes in H3 as (W3 & A3).
  apply add_into_writes in H4 as (W4 & A4 & _).
  apply xor_into_writes in H5 as (W5 & _).
  apply rotate_at_writes in H6 as (W6 & A6).
  apply add_into_writes in H7 as (W7 & A7 & _).
  apply xor_into_writes in H8 as (W8 & _).
  apply rotate_at_writes in H9 as (W9 & A9).
  apply add_into_writes in H10 as (W10 & A10 & _).
  apply xor_into_writes in H11 as (W11 & _).
  apply rotate_at_writes in H12 as (W12 & A12).
  exists t1, t3, t4, t6, t7, t9, t10.
  repeat match goal with |- _ /\ _ => split end;
    eauto using writes_trans.
Qed.

(** X5: a successful [quarter_round], on a list of arbitrary integers,
    keeps the length of the list, leaves every slot other than [a], [b],
    [c], [d] as it was, and leaves 32-bit words in the four slots. *)
Theorem quarter_round_frame (st st' : list Z) (a b c d : nat) :
  quarter_round st a b c d = Ok st' ->
  length st' = length st
  /\ (forall k, k <> a -> k <> b -> k <> c -> k <> d -> st' !! k = st !! k)
  /\ word_at st' a /\ word_at st' b /\ word_at st' c /\ word_at st' d.
Proof.
  intros H. apply quarter_round_steps in H
    as (s1 & s2 & s3 & s4 & s5 & s6 & s7 & (W1 & _ & _) & (W2 & _)
        & (W3 & _) & (W4 & _) & (W5 & A5) & (W6 & A6) & (W7 & A7)
        & (W8 & A8)).
  split; [|split].
  - destruct W1 as [L1 _], W2 as [L2 _], W3 as [L3 _], W4 as [L4 _],
      W5 as [L5 _], W6 as [L6 _], W7 as [L7 _], W8 as [L8 _]. congruence.
  - intros k Ha Hb Hc Hd.
    rewrite (proj2 (proj2 W8) k Hb), (proj2 (proj2 W7) k Hc),
      (proj2 (proj2 W6) k Hd), (proj2 (proj2 W5) k Ha),
      (proj2 (proj2 W4) k Hb), (proj2 (proj2 W3) k Hc),
      (proj2 (proj2 W2) k Hd), (proj2 (proj2 W1) k Ha).
    reflexivity.
  - assert (A6a : word_at s6 a) by (eapply writes_word_at; eauto).
    assert (A7a : word_at s7 a) by (eapply writes_word_at; eauto).
    assert (A7d : word_at s7 d) by (eapply writes_word_at; eauto).
    repeat split; try exact A8; eapply writes_word_at; eauto.
Qed.

Lemma quarter_round_frame_witness :
  length rfc_qr_expected = length rfc_qr_state
  /\ (forall k, k <> 2%nat -> k <> 7%nat -> k <> 8%nat -> k <> 13%nat ->
                rfc_qr_expected !! k = rfc_qr_state !! k)
  /\ word_at rfc_qr_expected 2 /\ word_at rfc_qr_expected 7
  /\ word_at rfc_qr_expected 8 /\ word_at rfc_qr_expected 13.
Proof.
  apply (quarter_round_frame rfc_qr_state rfc_qr_expected 2 7 8 13).
  vm_compute. reflexivity.
Defined.

Lemma quarter_round_Ok_bounds (st st' : list Z) (a b c d : nat) :
  quarter_round st a b c d = Ok st' ->
  (a < length st)%nat /\ (b < length st)%nat
  /\ (c < length st)%nat /\ (d < length st)%nat.
Proof.
  intros H. apply quarter_round_steps in H
    as (s1 & s2 & s3 & _ & _ & _ & _ & (W1 & _ & Hb) & (W2 & _)
        & (W3 & _) & _).
  destruct W1 as (L1 & Ha & _), W2 as (L2 & Hd & _), W3 as (_ & Hc & _).
  repeat split; lia.
Qed.

Lemma add_into_Err (st : list Z) (i j : nat) (e : error) :
  add_into st i j = Err e -> e = IndexError.
Proof.
  unfold add_into. intros H.
  apply bind_Err_inv in H as [H|(x & _ & H)];
    [now apply getitem_Err_inv in H|].
  apply bind_Err_inv in H as [H|(y & _ & H)];
    [now apply getitem_Err_inv in H|].
  now apply setitem_Err_inv in H.
Qed.

Lemma xor_into_Err (st : list Z) (i j : nat) (e : error) :
  xor_into st i j = Err e -> e = IndexError.
Proof.
  unfold xor_into. intros H.
  apply bind_Err_inv in H as [H|(x & _ & H)];
    [now apply getitem_Err_inv in H|].
  apply bind_Err_inv in H as [H|(y & _ & H)];
    [now apply getitem_Err_inv in H|].
  now apply setitem_Err_inv in H.
Qed.

Lemma rotate_at_Err (st : list Z) (i : nat) (n : Z) (e : error) :
  rotate_at st i n = Err e -> e = IndexError.
Proof.
  unfold rotate_at. intros H.
  apply bind_Err_inv in H as [H|(x & _ & H)];
    [now apply getitem_Err_inv in H|].
  now apply setitem_Err_inv in H.
Qed.

Lemma quarter_round_Err (st : list Z) (a b c d : nat) (e : error) :
  quarter_round st a b c d = Err e -> e = IndexError.
Proof.
  unfold quarter_round. intros H.
  repeat (apply bind_Err_inv in H as [H|(? & _ & H)];
          [first [now apply add_into_Err in H
                 |now apply xor_into_Err in H
                 |now apply rotate_at_Err in H]|]).
  discriminate.
Qed.

Lemma add_into_in (st : list Z) (i j : nat) :
  (i < length st)%nat -> (j < length st)%nat ->
  exists st', add_into st i j = Ok st' /\ length st' = length st.
Proof.
  intros Hi Hj. unfold add_into.
  rewrite (getitem_total st i Hi), (getitem_total st j Hj).
  cbn [mbind res_bind]. rewrite setitem_in by exact Hi.
  eexists. split; [reflexivity|apply length_insert].
Qed.

Lemma xor_into_in (st : list Z) (i j : nat) :
  (i < length st)%nat -> (j < length st)%nat ->
  exists st', xor_into st i j = Ok st' /\ length st' = length st.
Proof.
  intros Hi Hj. unfold xor_into.
  rewrite (getitem_total st i Hi), (getitem_total st j Hj).
  cbn [mbind res_bind]. rewrite setitem_in by exact Hi.
  eexists. split; [reflexivity|apply length_insert].
Qed.

Lemma rotate_at_in (st : list Z) (i : nat) (n : Z) :
  (i < length st)%nat ->
  exists st', rotate_at st i n = Ok st' /\ length st' = length st.
Proof.
  intros Hi. unfold rotate_at. rewrite (getitem_total st i Hi).
  cbn [mbind res_bind]. rewrite setitem_in by exact Hi.
  eexists. split; [reflexivity|apply length_insert].
Qed.

Lemma quarter_round_in (st : list Z) (a b c d : nat) :
  (a < length st)%nat -> (b < length st)%nat ->
  (c < length st)%nat -> (d < length st)%nat ->
  exists st', quarter_round st a b c d = Ok st'.
Proof.
  intros Ha Hb Hc Hd. unfold quarter_round.
  destruct (add_into_in st a b) as (s1 & -> & L1); [lia..|].
  cbn [mbind res_bind].
  destruct (xor_into_in s1 d a) as (s2 & -> & L2); [lia..|].
  cbn [mbind res_bind].
  destruct (rotate_at_in s2 d 16) as (s3 & -> & L3); [lia..|].
  cbn [mbind res_bind].
  destruct (add_into_in s3 c d) as (s4 & -> & L4); [lia..|].
  cbn [mbind res_bind].
  destruct (xor_into_in s4 b c) as (s5 & -> & L5); [lia..|].
  cbn [mbind res_bind].
  destruct (rotate_at_in s5 b 12) as (s6 & -> & L6); [lia..|].
  cbn [mbind res_bind].
  destruct (add_into_in s6 a b) as (s7 & -> & L7); [lia..|].
  cbn [mbind res_bind].
  destruct (xor_into_in s7 d a) as (s8 & -> & L8); [lia..|].
  cbn [mbind res_bind].
  destruct (rotate_at_in s8 d 8) as (s9 & -> & L9); [lia..|].
  cbn [mbind res_bind].
  destruct (add_into_in s9 c d) as (s10 & -> & L10); [lia..|].
  cbn [mbind res_bind].
  destruct (xor_into_in s10 b c) as (s11 & -> & L11); [lia..|].
  cbn [mbind res_bind].
  destruct (rotate_at_in s11 b 7) as (s12 & -> & L12); [lia..|].
  cbn [mbind res_bind]. now exists s12.
Qed.

(** X6: [quarter_round] succeeds, whatever integers the list holds, as soon
    as the four indices are below its length, and raises [IndexError], and
    nothing else, when one of them is not. *)
Theorem quarter_round_index_check (st : list Z) (a b c d : nat) :
  ((a < length st)%nat /\ (b < length st)%nat
   /\ (c < length st)%nat /\ (d < length st)%nat ->
   exists st', quarter_round st a b c d = Ok st')
  /\ (~ ((a < length st)%nat /\ (b < length st)%nat
         /\ (c < length st)%nat /\ (d < length st)%nat) ->
      quarter_round st a b c d = Err IndexError).
Proof.
  split.
  - intros (Ha & Hb & Hc & Hd). now apply quarter_round_in.
  - intros Hout. destruct (quarter_round st a b c d) as [st'|e] eqn:E.
    + exfalso. apply Hout. now apply quarter_round_Ok_bounds in E.
    + f_equal. now apply quarter_round_Err in E.
Qed.

Lemma quarter_round_index_check_witness :
  (exists st', quarter_round rfc_qr_state 2 7 8 13 = Ok st')
  /\ quarter_round rfc_qr_state 2 7 8 16 = Err IndexError.
Proof.
  split.
  - apply (quarter_round_index_check rfc_qr_state 2 7 8 13). simpl. lia.
  - apply (quarter_round_index_check rfc_qr_state 2 7 8 16). simpl. lia.
Defined.

(** ** The quarter round and the rounds are one-to-one *)

Lemma add32_cancel (p p' y : Z) :
  word32 p -> word32 p' -> add32 p y = add32 p' y -> p = p'.
Proof.
  unfold word32, add32. intros Hp Hp' H.
  pose proof (Z.div_mod (p + y) (2 ^ 32) ltac:(lia)) as D.
  pose proof (Z.div_mod (p' + y) (2 ^ 32) ltac:(lia)) as D'.
  rewrite H in D.
  generalize dependent ((p + y) / 2 ^ 32).
  generalize dependent ((p' + y) / 2 ^ 32).
  generalize dependent ((p' + y) mod 2 ^ 32).
  intros r _ q' Hq' q Hq. lia.
Qed.

Lemma rotl32_inj (x y n : Z) :
  word32 x -> word32 y -> 0 <= n < 32 -> rotl32 x n = rotl32 y n -> x = y.
Proof.
  intros Hx Hy Hn H. apply (rotate_left_inj x y n Hx Hy).
  now rewrite !rotate_left_rotl32.
Qed.

Lemma lxor_cancel_r (p p' a : Z) : Z.lxor p a = Z.lxor p' a -> p = p'.
Proof.
  intros H. apply (f_equal (fun v => Z.lxor v a)) in H.
  now rewrite !Z.lxor_assoc, !Z.lxor_nilpotent, !Z.lxor_0_r in H.
Qed.

Section arx_line_lookups.
Variables (st : list Z) (x y z : nat) (n : Z).
Hypothesis x_in : (x < length st)%nat.
Hypothesis z_in : (z < length st)%nat.
Hypothesis x_z : x <> z.

Lemma arx_line_other (k : nat) :
  k <> x -> k <> z -> arx_line st x y z n !! k = st !! k.
Proof.
  intros Hx Hz. unfold arx_line. cbv zeta.
  now rewrite !list_lookup_insert_ne by congruence.
Qed.

Lemma arx_line_at_x :
  arx_line st x y z n !!! x = add32 (st !!! x) (st !!! y).
Proof.
  unfold arx_line. cbv zeta.
  rewrite !list_lookup_total_insert_ne by congruence.
  now rewrite list_lookup_total_insert_eq by exact x_in.
Qed.

Lemma arx_line_at_z :
  arx_line st x y z n !!! z
  = rotl32 (Z.lxor (st !!! z) (add32 (st !!! x) (st !!! y))) n.
Proof.
  unfold arx_line. cbv zeta.
  rewrite list_lookup_total_insert_eq by (rewrite !length_insert; lia).
  rewrite list_lookup_total_insert_eq by (rewrite !length_insert; lia).
  rewrite list_lookup_total_insert_ne by congruence.
  now rewrite list_lookup_total_insert_eq by exact x_in.
Qed.
End arx_line_lookups.

Lemma lookup_total_eq (s s' : list Z) (k : nat) :
  (k < length s)%nat -> (k < length s')%nat ->
  (s !!! k = s' !!! k <-> s !! k = s' !! k).
Proof.
  intros Hk Hk'.
  rewrite (list_lookup_lookup_total_lt s k Hk),
    (list_lookup_lookup_total_lt s' k Hk').
  split; congruence.
Qed.

Lemma arx_line_inj (s s' : list Z) (x y z : nat) (n : Z) :
  words32 s -> words32 s' -> length s = length s' ->
  (x < length s)%nat -> (y < length s)%nat -> (z < length s)%nat ->
  x <> z -> y <> x -> y <> z -> 0 <= n < 32 ->
  arx_line s x y z n = arx_line s' x y z n -> s = s'.
Proof.
  intros Hw Hw' Hl Hx Hy Hz Hxz Hyx Hyz Hn H.
  assert (Hother : forall k, k <> x -> k <> z -> s !! k = s' !! k).
  { intros k Hkx Hkz.
    rewrite <- (arx_line_other s x y z n k Hkx Hkz).
    rewrite <- (arx_line_other s' x y z n k Hkx Hkz). now rewrite H. }
  assert (Hyy : s !!! y = s' !!! y).
  { apply lookup_total_eq; [lia..|]. now apply Hother. }
  assert (Hxx' : add32 (s !!! x) (s !!! y) = add32 (s' !!! x) (s' !!! y)).
  { rewrite <- (arx_line_at_x s x y z n), <- (arx_line_at_x s' x y z n)
      by (congruence || lia).
    now rewrite H. }
  assert (Hxx : s !!! x = s' !!! x).
  { rewrite <- Hyy in Hxx'. apply add32_cancel in Hxx'; [exact Hxx'| |];
      apply words32_lookup; auto; lia. }
  assert (Hzz : s !!! z = s' !!! z).
  { pose proof (arx_line_at_z s x y z n Hx Hz Hxz) as E.
    pose proof (arx_line_at_z s' x y z n ltac:(lia) ltac:(lia) Hxz) as E'.
    rewrite H, E', <- Hxx' in E.
    apply rotl32_inj in E; [|apply lxor_word..|exact Hn];
      try apply add32_word; try (apply words32_lookup; auto; lia).
    symmetry. now apply lxor_cancel_r in E. }
  apply list_eq. intros k.
  destruct (decide (k = x)) as [->|Hkx];
    [apply lookup_total_eq; auto; lia|].
  destruct (decide (k = z)) as [->|Hkz];
    [apply lookup_total_eq; auto; lia|].
  now apply Hother.
Qed.

Lemma arx_quarter_round_inj (s s' : list Z) (a b c d : nat) :
  words32 s -> words32 s' -> length s = length s' ->
  (a < length s)%nat -> (b < length s)%nat ->
  (c < length s)%nat -> (d < length s)%nat ->
  a <> b -> a <> c -> a <> d -> b <> c -> b <> d -> c <> d ->
  arx_quarter_round s a b c d = arx_quarter_round s' a b c d -> s = s'.
Proof.
  intros Hw Hw' Hl Ha Hb Hc Hd Hab Hac Had Hbc Hbd Hcd.
  unfold arx_quarter_round. cbv zeta. intros H.
  assert (W1 : words32 (arx_line s a b d 16))
    by (apply arx_line_words; auto; lia).
  assert (W1' : words32 (arx_line s' a b d 16))
    by (apply arx_line_words; auto; lia).
  assert (W2 : words32 (arx_line (arx_line s a b d 16) c d b 12))
    by (apply arx_line_words; rewrite ?arx_line_length; auto; lia).
  assert (W2' : words32 (arx_line (arx_line s' a b d 16) c d b 12))
    by (apply arx_line_words; rewrite ?arx_line_length; auto; lia).
  assert (W3 : words32 (arx_line (arx_line (arx_line s a b d 16) c d b 12)
                                 a b d 8))
    by (apply arx_line_words; rewrite ?arx_line_length; auto; lia).
  assert (W3' : words32 (arx_line (arx_line (arx_line s' a b d 16) c d b 12)
                                  a b d 8))
    by (apply arx_line_words; rewrite ?arx_line_length; auto; lia).
  apply arx_line_inj in H; rewrite ?arx_line_length; auto; try lia.
  apply arx_line_inj in H; rewrite ?arx_line_length; auto; try lia.
  apply arx_line_inj in H; rewrite ?arx_line_length; auto; try lia.
  apply arx_line_inj in H; rewrite ?arx_line_length; auto; try lia.
Qed.

Lemma quarter_round_Ok_length (st st' : list Z) (a b c d : nat) :
  quarter_round st a b c d = Ok st' -> length st' = length st.
Proof.
  intros H. apply quarter_round_steps in H
    as (s1 & s2 & s3 & s4 & s5 & s6 & s7 & (W1 & _ & _) & (W2 & _)
        & (W3 & _) & (W4 & _) & (W5 & _) & (W6 & _) & (W7 & _)
        & (W8 & _)).
  destruct W1 as [L1 _], W2 as [L2 _], W3 as [L3 _], W4 as [L4 _],
    W5 as [L5 _], W6 as [L6 _], W7 as [L7 _], W8 as [L8 _]. congruence.
Qed.

(** X7: on lists of 32-bit words and four different indices, the quarter
    round is one-to-one: two states with the same result are the same
    state. *)
Theorem quarter_round_injective (st st' r : list Z) (a b c d : nat) :
  words32 st -> words32 st' ->
  a <> b -> a <> c -> a <> d -> b <> c -> b <> d -> c <> d ->
  quarter_round st a b c d = Ok r ->
  quarter_round st' a b c d = Ok r ->
  st = st'.
Proof.
  intros Hw Hw' Hab Hac Had Hbc Hbd Hcd H H'.
  pose proof (quarter_round_Ok_length _ _ _ _ _ _ H) as L.
  pose proof (quarter_round_Ok_length _ _ _ _ _ _ H') as L'.
  destruct (quarter_round_Ok_bounds _ _ _ _ _ _ H) as (Ha & Hb & Hc & Hd).
  rewrite quarter_round_arx in H by (auto; lia).
  rewrite quarter_round_arx in H' by (auto; lia).
  injection H as H. injection H' as H'.
  apply (arx_quarter_round_inj st st' a b c d); auto; congruence.
Qed.

Lemma quarter_round_injective_witness :
  rfc_qr_state = rfc_qr_state.
Proof.
  assert (Hw : words32 rfc_qr_state).
  { unfold rfc_qr_state.
    repeat (apply Forall_cons_2; [unfold word32; lia|]).
    apply Forall_nil_2. }
  assert (Hq : quarter_round rfc_qr_state 2 7 8 13 = Ok rfc_qr_expected)
    by (vm_compute; reflexivity).
  exact (quarter_round_injective rfc_qr_state rfc_qr_state rfc_qr_expected
           2 7 8 13 Hw Hw ltac:(lia) ltac:(lia) ltac:(lia) ltac:(lia)
           ltac:(lia) ltac:(lia) Hq Hq).
Defined.

Lemma apply_qr_keeps_state16 (st : list Z) (q : nat * nat * nat * nat) :
  state16 st -> distinct_group q -> state16 (apply_qr st q).
Proof.
  destruct q as [[[a b] c] d]. intros [Hl Hw] [(Ha & Hb & Hc & Hd) _].
  unfold apply_qr. split.
  - now rewrite arx_quarter_round_length.
  - apply arx_quarter_round_words; auto; lia.
Qed.

Lemma apply_qr_inj (s s' : list Z) (q : nat * nat * nat * nat) :
  state16 s -> state16 s' -> distinct_group q ->
  apply_qr s q = apply_qr s' q -> s = s'.
Proof.
  destruct q as [[[a b] c] d].
  intros [Hl Hw] [Hl' Hw']
    [(Ha & Hb & Hc & Hd) (Hab & Hac & Had & Hbc & Hbd & Hcd)].
  unfold apply_qr. intros Heq.
  apply (arx_quarter_round_inj s s' a b c d); auto; lia.
Qed.

Lemma foldl_apply_qr_inj (qs : list (nat * nat * nat * nat))
    (s s' : list Z) :
  Forall distinct_group qs -> state16 s -> state16 s' ->
  foldl apply_qr s qs = foldl apply_qr s' qs -> s = s'.
Proof.
  intros Hqs. revert s s'.
  induction Hqs as [|q qs Hq Hqs IH]; intros s s' Hs Hs' H.
  - exact H.
  - cbn [foldl] in H. apply IH in H.
    + now apply (apply_qr_inj s s' q).
    + now apply apply_qr_keeps_state16.
    + now apply apply_qr_keeps_state16.
Qed.

Lemma double_round_groups :
  Forall distinct_group (column_rounds ++ diagonal_rounds).
Proof.
  unfold column_rounds, diagonal_rounds. cbn [app].
  repeat (apply Forall_cons_2; [cbn; lia|]). apply Forall_nil_2.
Qed.

Lemma rounds_groups (n : nat) :
  Forall distinct_group
         (concat (replicate n (column_rounds ++ diagonal_rounds))).
Proof.
  induction n as [|n IH]; cbn [replicate concat]; [apply Forall_nil_2|].
  apply Forall_app. split; [apply double_round_groups|exact IH].
Qed.

(** X8: the round loop of [chacha20_block], taken without the addition
    that follows it, is one-to-one on states of sixteen 32-bit words: two
    states that leave the loop as the same working state are equal. *)
Theorem rounds_injective (s s' w : list Z) (l l' : qr_log) :
  state16 s -> state16 s' ->
  for_each (range 10) (fun _ acc => double_round_run acc) (s, []) = Ok (w, l) ->
  for_each (range 10) (fun _ acc => double_round_run acc) (s', [])
  = Ok (w, l') ->
  s = s'.
Proof.
  intros Hs Hs'. unfold range. rewrite !rounds_run_log.
  destruct (rounds_arx 10 0 s Hs) as [-> _].
  destruct (rounds_arx 10 0 s' Hs') as [-> _].
  pose proof (rounds_groups 10) as Hqs. revert Hqs.
  generalize (concat (replicate 10 (column_rounds ++ diagonal_rounds))).
  intros qs Hqs. cbn [mbind res_bind]. intros H H'.
  injection H as H1 _. injection H' as H1' _.
  apply (foldl_apply_qr_inj qs s s' Hqs Hs Hs'). congruence.
Qed.

Lemma rounds_injective_witness : rfc_qr_state = rfc_qr_state.
Proof.
  assert (Hs : state16 rfc_qr_state).
  { split; [reflexivity|]. unfold rfc_qr_state.
    repeat (apply Forall_cons_2; [unfold word32; lia|]).
    apply Forall_nil_2. }
  assert (Hr : for_each (range 10) (fun _ acc => double_round_run acc)
                        (rfc_qr_state, [])
               = Ok (fst rfc_qr_state_rounds, snd rfc_qr_state_rounds))
    by (vm_compute; reflexivity).
  exact (rounds_injective rfc_qr_state rfc_qr_state _ _ _ Hs Hs Hr Hr).
Defined.

(** ** initial_state *)

Lemma le_word_inj (b0 b1 b2 b3 c0 c1 c2 c3 : byte) :
  le_word b0 b1 b2 b3 = le_word c0 c1 c2 c3 ->
  b0 = c0 /\ b1 = c1 /\ b2 = c2 /\ b3 = c3.
Proof.
  rewrite !le_word_arith. intros H.
  pose proof (byte_to_Z_range b0). pose proof (byte_to_Z_range b1).
  pose proof (byte_to_Z_range b2). pose proof (byte_to_Z_range b3).
  pose proof (byte_to_Z_range c0). pose proof (byte_to_Z_range c1).
  pose proof (byte_to_Z_range c2). pose proof (byte_to_Z_range c3).
  change (2 ^ 8) with 256 in H. change (2 ^ 16) with 65536 in H.
  change (2 ^ 24) with 16777216 in H.
  repeat split; apply byte_to_Z_inj; lia.
Qed.

Lemma le_words_inj (n : nat) (bs cs : list byte) :
  length bs = (4 * n)%nat -> length cs = (4 * n)%nat ->
  le_words bs = le_words cs -> bs = cs.
Proof.
  revert bs cs. induction n as [|n IH]; intros bs cs Hb Hc H.
  - destruct bs, cs; try discriminate. reflexivity.
  - destruct bs as [|b0 [|b1 [|b2 [|b3 bs]]]]; simpl in Hb; try lia.
    destruct cs as [|c0 [|c1 [|c2 [|c3 cs]]]]; simpl in Hc; try lia.
    cbn [le_words] in H. injection H as Hw Hrest.
    apply le_word_inj in Hw as (-> & -> & -> & ->).
    do 4 f_equal. apply IH; [lia|lia|exact Hrest].
Qed.

Lemma initial_state_Ok_inv (key nonce : list byte) (counter : Z)
    (S : list Z) :
  initial_state key counter nonce = Ok S ->
  length key = 32%nat /\ length nonce = 12%nat
  /\ S = constants ++ le_words key ++ [counter] ++ le_words nonce.
Proof.
  unfold initial_state, struct_unpack_I.
  destruct (decide (length key = (4 * 8)%nat)) as [Hk|Hk]; [|discriminate].
  destruct (decide (length nonce = (4 * 3)%nat)) as [Hn|Hn];
    [|discriminate].
  cbn [mbind res_bind]. intros [= <-]. auto.
Qed.

(** X9: the initial state determines its inputs: if two calls of
    [initial_state] return the same state, their keys, counters and nonces
    are the same. *)
Theorem initial_state_injective (key key' nonce nonce' : list byte)
    (counter counter' : Z) (S : list Z) :
  initial_state key counter nonce = Ok S ->
  initial_state key' counter' nonce' = Ok S ->
  key = key' /\ counter = counter' /\ nonce = nonce'.
Proof.
  intros H H'.
  apply initial_state_Ok_inv in H as (Hk & Hn & ->).
  apply initial_state_Ok_inv in H' as (Hk' & Hn' & H').
  apply app_inv_head in H'.
  apply app_inj_1 in H' as [Hkw H'].
  2:{ now rewrite !(le_words_length 8) by lia. }
  injection H' as Hc Hnw.
  split; [|split; [congruence|]].
  - symmetry. now apply (le_words_inj 8).
  - symmetry. now apply (le_words_inj 3).
Qed.

Lemma initial_state_injective_witness :
  rfc_key = rfc_key /\ 1 = 1 /\ test_nonce = test_nonce.
Proof.
  apply (initial_state_injective rfc_key rfc_key test_nonce test_nonce 1 1
           rfc_initial_state);
    vm_compute; reflexivity.
Defined.



(** ** chacha20_block and the counter *)



(** ** chacha20_encrypt as a stream *)

Lemma block_at_shift (key nonce : list byte) (ic : Z) (m i : nat) :
  block_at key nonce ic (m + i) = block_at key nonce (ic + Z.of_nat m) i.
Proof.
  unfold block_at.
  replace (Z.of_nat (m + i) + ic) with (Z.of_nat i + (ic + Z.of_nat m))
    by lia.
  reflexivity.
Qed.

Lemma stream_output_app (key nonce : list byte) (ic : Z) (m : nat)
    (P Q : list byte) :
  length key = 32%nat -> length nonce = 12%nat ->
  length P = (64 * m)%nat ->
  stream_output key nonce ic (P ++ Q)
  = stream_output key nonce ic P
    ++ stream_output key nonce (ic + Z.of_nat m) Q.
Proof.
  intros Hk Hn HP. apply list_eq. intros j.
  pose proof (output_length key nonce ic Hk Hn P) as HlP.
  rewrite output_lookup by assumption.
  destruct (decide (j < length P)%nat) as [Hj|Hj].
  - rewrite lookup_app_l by lia. rewrite lookup_app_l by lia.
    now rewrite output_lookup by assumption.
  - rewrite lookup_app_r by lia. rewrite lookup_app_r by lia.
    rewrite output_lookup by assumption. rewrite HlP.
    replace (j / 64)%nat with (m + (j - length P) / 64)%nat.
    2:{ replace j with ((j - length P) + m * 64)%nat at 2 by lia.
        rewrite Nat.div_add by lia. lia. }
    replace (j mod 64)%nat with ((j - length P) mod 64)%nat.
    2:{ replace j with ((j - length P) + m * 64)%nat at 2 by lia.
        now rewrite Nat.Div0.mod_add. }
    now rewrite block_at_shift.
Qed.

(** X12: when the first part of the input is a whole number [m] of
    64-byte blocks, encrypting the input is encrypting the first part with
    the initial counter and the rest with the initial counter plus [m],
    and joining the two outputs. *)
Theorem chacha20_encrypt_concat (key nonce P Q : list byte)
    (initial_counter : Z) (m : nat) :
  length key = 32%nat -> length nonce = 12%nat ->
  length P = (64 * m)%nat ->
  exists C1 C2,
    chacha20_encrypt key nonce P initial_counter = Ok C1
    /\ chacha20_encrypt key nonce Q (initial_counter + Z.of_nat m) = Ok C2
    /\ chacha20_encrypt key nonce (P ++ Q) initial_counter = Ok (C1 ++ C2).
Proof.
  intros Hk Hn HP.
  exists (stream_output key nonce initial_counter P),
    (stream_output key nonce (initial_counter + Z.of_nat m) Q).
  split; [now apply chacha20_encrypt_output|].
  split; [now apply chacha20_encrypt_output|].
  rewrite chacha20_encrypt_output by assumption.
  f_equal. now apply stream_output_app.
Qed.

Lemma chacha20_encrypt_concat_witness :
  exists C1 C2,
    chacha20_encrypt rfc_key test_nonce (take 64 sunscreen) 1 = Ok C1
    /\ chacha20_encrypt rfc_key test_nonce (drop 64 sunscreen)
                        (1 + Z.of_nat 1) = Ok C2
    /\ chacha20_encrypt rfc_key test_nonce
                        (take 64 sunscreen ++ drop 64 sunscreen) 1
       = Ok (C1 ++ C2).
Proof.
  apply (chacha20_encrypt_concat rfc_key test_nonce (take 64 sunscreen)
           (drop 64 sunscreen) 1 1);
    reflexivity.
Defined.

Lemma lxor_cancel_middle (p q k : Z) :
  Z.lxor (Z.lxor p k) (Z.lxor q k) = Z.lxor p q.
Proof.
  apply Z.bits_inj'. intros i _. rewrite !Z.lxor_spec.
  now destruct (Z.testbit p i), (Z.testbit q i), (Z.testbit k i).
Qed.

Lemma zip_lxor_cancel (P Q K : list Z) :
  length P = length Q -> (length P <= length K)%nat ->
  zip_with Z.lxor (zip_with Z.lxor P K) (zip_with Z.lxor Q K)
  = zip_with Z.lxor P Q.
Proof.
  revert Q K. induction P as [|p P IH]; intros [|q Q] [|k K] Hl Hk;
    simpl in *; try reflexivity; try lia.
  rewrite lxor_cancel_middle, IH by lia. reflexivity.
Qed.

(** X13: the xor of the outputs for two inputs of the same length, under
    the same key, nonce and initial counter, is the xor of the two inputs:
    the keystream cancels. *)
Theorem chacha20_encrypt_xor_of_outputs (key nonce P Q : list byte)
    (initial_counter : Z) :
  length key = 32%nat -> length nonce = 12%nat -> length P = length Q ->
  exists C D,
    chacha20_encrypt key nonce P initial_counter = Ok C
    /\ chacha20_encrypt key nonce Q initial_counter = Ok D
    /\ zip_with Z.lxor (map byte_to_Z C) (map byte_to_Z D)
       = zip_with Z.lxor (map byte_to_Z P) (map byte_to_Z Q).
Proof.
  intros Hk Hn Hl.
  exists (stream_output key nonce initial_counter P),
    (stream_output key nonce initial_counter Q).
  split; [now apply chacha20_encrypt_output|].
  split; [now apply chacha20_encrypt_output|].
  unfold stream_output. rewrite <- Hl. rewrite !xor_bytes_ints.
  apply zip_lxor_cancel.
  - now rewrite !length_map.
  - rewrite !length_map, (keystream_length key nonce initial_counter Hk Hn).
    apply block_count_covers.
Qed.

Lemma chacha20_encrypt_xor_of_outputs_witness :
  exists C D,
    chacha20_encrypt rfc_key test_nonce (take 35 sunscreen) 1 = Ok C
    /\ chacha20_encrypt rfc_key test_nonce (drop 35 sunscreen) 1 = Ok D
    /\ zip_with Z.lxor (map byte_to_Z C) (map byte_to_Z D)
       = zip_with Z.lxor (map byte_to_Z (take 35 sunscreen))
                         (map byte_to_Z (drop 35 sunscreen)).
Proof.
  apply (chacha20_encrypt_xor_of_outputs rfc_key test_nonce
           (take 35 sunscreen) (drop 35 sunscreen) 1);
    reflexivity.
Defined.

Lemma lxor_swap_difference (p b k : Z) :
  Z.lxor b k = Z.lxor (Z.lxor p k) (Z.lxor p b).
Proof.
  apply Z.bits_inj'. intros i _. rewrite !Z.lxor_spec.
  now destruct (Z.testbit p i), (Z.testbit b i), (Z.testbit k i).
Qed.

(** X14: replacing the byte at position [j] of the input changes the
    output at position [j] only, and the output byte changes by the xor
    difference of the two input bytes. *)
Theorem chacha20_encrypt_byte_local (key nonce P : list byte)
    (initial_counter : Z) (j : nat) (p b : byte) :
  length key = 32%nat -> length nonce = 12%nat -> P !! j = Some p ->
  exists C c c',
    chacha20_encrypt key nonce P initial_counter = Ok C
    /\ C !! j = Some c
    /\ chacha20_encrypt key nonce (<[j:=b]> P) initial_counter
       = Ok (<[j:=c']> C)
    /\ byte_to_Z c'
       = Z.lxor (byte_to_Z c) (Z.lxor (byte_to_Z p) (byte_to_Z b)).
Proof.
  intros Hk Hn Hp.
  rewrite !chacha20_encrypt_output by assumption.
  pose proof (output_lookup key nonce initial_counter Hk Hn P j) as Hj.
  rewrite Hp in Hj. cbn [mbind option_bind] in Hj.
  pose proof (lookup_lt_Some _ _ _ Hp) as Hlt.
  pose proof (output_length key nonce initial_counter Hk Hn P) as Hlen.
  destruct (stream_output key nonce initial_counter P !! j) as [c|] eqn:Hc.
  2:{ apply lookup_ge_None in Hc. lia. }
  destruct (block_at key nonce initial_counter (j / 64) !! (j mod 64)%nat)
    as [k|] eqn:Hkj; [|discriminate].
  cbn [mbind option_bind] in Hj. injection Hj as Hcv.
  exists (stream_output key nonce initial_counter P), c, (xor_byte b k).
  split; [reflexivity|]. split; [exact Hc|]. split.
  - f_equal. apply list_eq. intros i.
    rewrite output_lookup by assumption.
    destruct (decide (i = j)) as [->|Hij].
    + rewrite list_lookup_insert_eq by lia. rewrite Hkj.
      rewrite list_lookup_insert_eq by lia. reflexivity.
    + rewrite !list_lookup_insert_ne by congruence.
      now rewrite output_lookup by assumption.
  - rewrite Hcv, !byte_to_Z_xor. apply lxor_swap_difference.
Qed.

Lemma chacha20_encrypt_byte_local_witness :
  exists C c c',
    chacha20_encrypt rfc_key test_nonce sunscreen 1 = Ok C
    /\ C !! 65%nat = Some c
    /\ chacha20_encrypt rfc_key test_nonce (<[65%nat:=x00]> sunscreen) 1
       = Ok (<[65%nat:=c']> C)
    /\ byte_to_Z c'
       = Z.lxor (byte_to_Z c) (Z.lxor (byte_to_Z x6c) (byte_to_Z x00)).
Proof.
  apply (chacha20_encrypt_byte_local rfc_key test_nonce sunscreen 1 65
           x6c x00);
    [reflexivity|reflexivity|vm_compute; reflexivity].
Defined.

Lemma xor_byte_zero (k : byte) : xor_byte x00 k = k.
Proof.
  apply byte_to_Z_inj. rewrite byte_to_Z_xor. apply Z.lxor_0_l.
Qed.

(** X15: on an all-zero input of any length the output is the keystream
    itself: output byte [j] is byte [j mod 64] of the block that
    [chacha20_block] returns for the counter [initial_counter + j / 64]. *)
Theorem chacha20_encrypt_zeros (key nonce : list byte)
    (initial_counter : Z) (n : nat) :
  length key = 32%nat -> length nonce = 12%nat ->
  exists C,
    chacha20_encrypt key nonce (replicate n x00) initial_counter = Ok C
    /\ length C = n
    /\ forall j, (j < n)%nat ->
         exists ks,
           chacha20_block key (initial_counter + Z.of_nat (j / 64)) nonce
           = Ok ks
           /\ C !! j = ks !! (j mod 64)%nat.
Proof.
  intros Hk Hn.
  exists (stream_output key nonce initial_counter (replicate n x00)).
  split; [now apply chacha20_encrypt_output|].
  split.
  { rewrite output_length by assumption. apply length_replicate. }
  intros j Hj.
  destruct (block_at_Ok key nonce initial_counter Hk Hn (j / 64))
    as [Hb Hl].
  exists (block_at key nonce initial_counter (j / 64)). split.
  - rewrite <- Hb. f_equal. lia.
  - rewrite output_lookup by assumption.
    rewrite lookup_replicate_2 by exact Hj. cbn [mbind option_bind].
    destruct (block_at key nonce initial_counter (j / 64) !! (j mod 64)%nat)
      as [k|] eqn:Hkj; [|reflexivity].
    cbn [mbind option_bind]. now rewrite xor_byte_zero.
Qed.

Lemma chacha20_encrypt_zeros_witness :
  exists C,
    chacha20_encrypt rfc_key test_nonce (replicate 100 x00) 1 = Ok C
    /\ length C = 100%nat
    /\ forall j, (j < 100)%nat ->
         exists ks,
           chacha20_block rfc_key (1 + Z.of_nat (j / 64)) test_nonce
           = Ok ks
           /\ C !! j = ks !! (j mod 64)%nat.
Proof.
  apply (chacha20_encrypt_zeros rfc_key test_nonce 1 100); reflexivity.
Defined.

Lemma encrypt_block_counter_eqm (key nonce P : list byte) (ic ic' : Z)
    (k : nat) (ct : list byte) (calls calls' : list Z) :
  eqm32 ic ic' ->
  fst <$> encrypt_block key nonce P ic k (ct, calls)
  = fst <$> encrypt_block key nonce P ic' k (ct, calls').
Proof.
  intros He. unfold encrypt_block.
  rewrite (chacha20_block_eqm key nonce (Z.of_nat k + ic) (Z.of_nat k + ic')).
  2:{ unfold eqm32 in *. rewrite Z.add_mod, He, <- Z.add_mod by lia.
      reflexivity. }
  destruct (chacha20_block key (Z.of_nat k + ic') nonce) as [ks|e];
    [|reflexivity].
  cbn [mbind res_bind]. cbv zeta.
  match goal with
  | |- context [comprehension ?f ?xs] =>
      destruct (comprehension f xs) as [ints|e]
  end; [|reflexivity].
  cbn [mbind res_bind].
  destruct (bytes_of_ints ints) as [blk|e]; reflexivity.
Qed.

Lemma encrypt_loop_counter_eqm (key nonce P : list byte) (ic ic' : Z)
    (xs : list nat) (ct : list byte) (calls calls' : list Z) :
  eqm32 ic ic' ->
  fst <$> for_each xs (encrypt_block key nonce P ic) (ct, calls)
  = fst <$> for_each xs (encrypt_block key nonce P ic') (ct, calls').
Proof.
  intros He. revert ct calls calls'.
  induction xs as [|k xs IH]; intros ct calls calls'; [reflexivity|].
  cbn [for_each].
  pose proof (encrypt_block_counter_eqm key nonce P ic ic' k ct calls calls'
                He) as Hb.
  destruct (encrypt_block key nonce P ic k (ct, calls)) as [[ct1 c1]|e1];
    destruct (encrypt_block key nonce P ic' k (ct, calls'))
      as [[ct2 c2]|e2];
    cbn [fmap res_fmap fst] in Hb; try discriminate.
  - injection Hb as ->. cbn [mbind res_bind]. apply IH.
  - exact Hb.
Qed.


(** ** The test suite *)

Lemma test_chacha20_block_fails : test_chacha20_block = Ok false.
Proof. vm_compute. reflexivity. Qed.

Lemma roundtrip_check (key nonce P : list byte) (ic : Z) :
  length key = 32%nat -> length nonce = 12%nat ->
  exists C,
    chacha20_encrypt key nonce P ic = Ok C
    /\ chacha20_encrypt key nonce C ic = Ok P.
Proof.
  intros Hk Hn. exists (stream_output key nonce ic P).
  split; [now apply chacha20_encrypt_output|].
  rewrite chacha20_encrypt_output by assumption.
  f_equal. now apply output_involutive.
Qed.

Lemma sizes_loop_passes (key nonce : list byte)
    (jobs : list (nat * list byte)) :
  length key = 32%nat -> length nonce = 12%nat ->
  for_each jobs
           (fun '(size, data) success =>
              encrypted ← chacha20_encrypt key nonce data 1;
              decrypted ← chacha20_encrypt key nonce encrypted 1;
              Ok (if decide (decrypted <> data) then false else success))
           true
  = Ok true.
Proof.
  intros Hk Hn. induction jobs as [|[size data] jobs IH]; [reflexivity|].
  cbn [for_each].
  destruct (roundtrip_check key nonce data 1 Hk Hn) as (C & He & Hd).
  rewrite (bind_Ok _ _ _ He). cbn beta. rewrite (bind_Ok _ _ _ Hd).
  rewrite decide_False by (intros H; now apply H).
  cbn [mbind res_bind]. exact IH.
Qed.

Lemma one_failure_fails (r1 r2 r3 r5 r6 r7 r8 r9 : bool) :
  bool_decide
    (length (List.filter (fun result : bool => result)
                         [r1; r2; r3; false; r5; r6; r7; r8; r9])
     = length [r1; r2; r3; false; r5; r6; r7; r8; r9])
  = false.
Proof.
  destruct r1, r2, r3, r5, r6, r7, r8, r9; reflexivity.
Qed.

(** X17: [run_all_tests] returns [False] whatever key, nonce and data
    bytes the tests draw: the verdict of [test_chacha20_block], which
    compares the block for the nonce 000000000000004a00000000 with the
    keystream of RFC 8439, section 2.3.2, is [False], so fewer tests pass
    than were run. *)
Theorem run_all_tests_fails (d : os_draws) :
  test_chacha20_block = Ok false /\ run_all_tests d = false.
Proof.
  split; [exact test_chacha20_block_fails|].
  unfold run_all_tests, test_results. cbv zeta.
  rewrite test_chacha20_block_fails. cbn [attempt].
  apply one_failure_fails.
Qed.

(** X18: when the drawn keys are 32 bytes and the drawn nonces 12 bytes
    long, every test but [test_chacha20_block] returns [True], for all
    data bytes drawn; [test_empty_input] returns [True] for a key and a
    nonce of any length. *)
Theorem test_results_spec (d : os_draws) :
  length (roundtrip_key d) = 32%nat -> length (roundtrip_nonce d) = 12%nat ->
  length (large_key d) = 32%nat -> length (large_nonce d) = 12%nat ->
  length (sizes_key d) = 32%nat -> length (sizes_nonce d) = 12%nat ->
  test_results d
  = [true; true; true; false; true; true; true; true; true].
Proof.
  intros Hrk Hrn Hlk Hln Hsk Hsn. unfold test_results.
  assert (H1 : test_rotate_left = true) by (vm_compute; reflexivity).
  assert (H2 : test_quarter_round = Ok true) by (vm_compute; reflexivity).
  assert (H3 : test_initial_state = Ok true) by (vm_compute; reflexivity).
  assert (H5 : test_chacha20_encryption = Ok true)
    by (vm_compute; reflexivity).
  assert (H6 : test_encryption_decryption (roundtrip_key d)
                 (roundtrip_nonce d) = Ok true).
  { unfold test_encryption_decryption. cbv zeta.
    destruct (roundtrip_check (roundtrip_key d) (roundtrip_nonce d)
                test_message 1 Hrk Hrn) as (C & He & Hd).
    rewrite (bind_Ok _ _ _ He), (bind_Ok _ _ _ Hd).
    now rewrite bool_decide_eq_true_2. }
  assert (H7 : test_empty_input (empty_key d) (empty_nonce d) = Ok true)
    by reflexivity.
  assert (H8 : test_large_data (large_key d) (large_nonce d)
                 (large_data_drawn d) = Ok true).
  { unfold test_large_data.
    destruct (roundtrip_check (large_key d) (large_nonce d)
                (large_data_drawn d) 1 Hlk Hln) as (C & He & Hd).
    rewrite (bind_Ok _ _ _ He), (bind_Ok _ _ _ Hd).
    now rewrite bool_decide_eq_true_2. }
  assert (H9 : test_different_block_sizes (sizes_key d) (sizes_nonce d)
                 (sizes_data d) = Ok true).
  { unfold test_different_block_sizes. now apply sizes_loop_passes. }
  rewrite H1, H2, H3, test_chacha20_block_fails, H5, H6, H7, H8, H9.
  reflexivity.
Qed.

Lemma test_results_spec_witness :
  test_results sample_draws
  = [true; true; true; false; true; true; true; true; true].
Proof.
  apply (test_results_spec sample_draws); reflexivity.
Defined.
